(** * promock: a shallow embedding of [exporter.py]

    The exporter reads Prometheus text fixtures, summarises every metric
    (min, max, mean, standard deviation) and serves synthetic samples:
    counters advance from a per-series store, every other metric is drawn
    from the observed range.

    Modelling conventions.
    - Python [str] is [string]; a character is a code point below 256.
    - Python [float] is an exact rational [Q].  [statistics.mean] and
      [statistics.variance] work on exact fractions, so these are the
      values Python reaches before the final rounding; rounding, overflow
      to infinity and NaN are outside the model.  Equality of floats is
      therefore [Qeq] ([==]).
    - An insertion-ordered [dict] whose order is observable (the catalog,
      a label set, the label groups) is an association list with in-place
      update; the counter store, which is read and written by key and
      never iterated, is a [gmap].
    - The [random] module is an oracle: a stream of unit draws for
      [random.random()] and a stream of standard normal draws for
      [random.gauss], with a cursor that every call advances.
    - The file system and the clock are inputs of each call ([World]). *)

From Stdlib Require Import Ascii QArith Qabs.
From stdpp Require Import base option list gmap strings sorting.

(** ** Python string primitives *)

Module PyStr.

Definition code (c : ascii) : N := Ascii.N_of_ascii c.

Definition in_range (lo hi : N) (c : ascii) : bool :=
  (N.leb lo (code c) && N.leb (code c) hi)%bool.

(** [str.isspace] on code points below 256. *)
Definition is_space (c : ascii) : bool :=
  (in_range 9 13 c || in_range 28 32 c
   || N.eqb (code c) 133 || N.eqb (code c) 160)%bool.

Definition is_digit : ascii → bool := in_range 48 57.
Definition is_upper : ascii → bool := in_range 65 90.
Definition is_lower : ascii → bool := in_range 97 122.
Definition is_alpha (c : ascii) : bool := (is_upper c || is_lower c)%bool.

Definition is_char (a c : ascii) : bool := Ascii.eqb a c.

Fixpoint lstrip (s : string) : string :=
  match s with
  | String c s' => if is_space c then lstrip s' else s
  | EmptyString => EmptyString
  end.

Fixpoint rstrip (s : string) : string :=
  match s with
  | String c s' =>
      match rstrip s' with
      | EmptyString => if is_space c then EmptyString else String c EmptyString
      | t => String c t
      end
  | EmptyString => EmptyString
  end.

(** [s.strip()] *)
Definition strip (s : string) : string := rstrip (lstrip s).

(** [s.startswith(p)] *)
Fixpoint startswith (p s : string) : bool :=
  match p, s with
  | EmptyString, _ => true
  | String a p', String b s' => (Ascii.eqb a b && startswith p' s')%bool
  | String _ _, EmptyString => false
  end.

(** [s[n:]] *)
Fixpoint drop (n : nat) (s : string) : string :=
  match n, s with
  | O, _ => s
  | S n', String _ s' => drop n' s'
  | S _, EmptyString => EmptyString
  end.

(** [s[:n]] *)
Fixpoint take (n : nat) (s : string) : string :=
  match n, s with
  | O, _ => EmptyString
  | S n', String c s' => String c (take n' s')
  | S _, EmptyString => EmptyString
  end.

(** [s.endswith(p)] *)
Definition endswith (p s : string) : bool :=
  String.eqb (drop (String.length s - String.length p) s) p
  && Nat.leb (String.length p) (String.length s).

(** [s.split(c)] for a one-character separator: never empty. *)
Fixpoint split (c : ascii) (s : string) : list string :=
  match s with
  | EmptyString => [EmptyString]
  | String a s' =>
      if Ascii.eqb a c then EmptyString :: split c s'
      else match split c s' with
           | h :: t => String a h :: t
           | [] => [String a EmptyString]
           end
  end.

(** [s.split(c, 1)]: [None] stands for the one-element answer [[s]]
    given when [c] does not occur, [Some (a, b)] for [[a, b]]. *)
Fixpoint split_once (c : ascii) (s : string) : option (string * string) :=
  match s with
  | EmptyString => None
  | String a s' =>
      if Ascii.eqb a c then Some (EmptyString, s')
      else match split_once c s' with
           | Some (h, t) => Some (String a h, t)
           | None => None
           end
  end.

(** [c in s] for a one-character [c] *)
Fixpoint contains (c : ascii) (s : string) : bool :=
  match s with
  | EmptyString => false
  | String a s' => (Ascii.eqb a c || contains c s')%bool
  end.

(** [sep.join(parts)] *)
Definition join (sep : string) (parts : list string) : string :=
  String.concat sep parts.

(** [str.lower] on code points below 256. *)
Definition lower_char (c : ascii) : ascii :=
  if (is_upper c || (in_range 192 222 c && negb (N.eqb (code c) 215)))%bool
  then Ascii.ascii_of_N (code c + 32) else c.

Fixpoint lower (s : string) : string :=
  match s with
  | String c s' => String (lower_char c) (lower s')
  | EmptyString => EmptyString
  end.

End PyStr.

(** ** Insertion-ordered dictionaries *)

Module Dict.

Definition t (V : Type) : Type := list (string * V).

Section ops.
Context {V : Type}.

(** [d.get(k)] / [d[k]] *)
Fixpoint get (k : string) (d : t V) : option V :=
  match d with
  | [] => None
  | (k', v) :: d' => if String.eqb k k' then Some v else get k d'
  end.

(** [k in d] *)
Definition mem (k : string) (d : t V) : bool :=
  match get k d with Some _ => true | None => false end.

(** [d[k] = v]: an existing key keeps its position, a new key goes
    last. *)
Fixpoint set (k : string) (v : V) (d : t V) : t V :=
  match d with
  | [] => [(k, v)]
  | (k', v') :: d' =>
      if String.eqb k k' then (k', v) :: d' else (k', v') :: set k v d'
  end.

Definition keys (d : t V) : list string := d.*1.
End ops.

End Dict.

(** ** The fragment of Python's [re] the parser uses

    A backtracking matcher in continuation-passing style: alternatives
    are tried in order, a greedy star takes the longest run first, a lazy
    star the shortest, and the first overall success wins, as in [re].
    Every star of the two patterns of the parser ranges over a character
    class, so the star constructors take a class. *)

Module Re.

Inductive t : Type :=
| Eps
| Cls (p : ascii → bool)
| Seq (r1 r2 : t)
| Alt (r1 r2 : t)
| Star (p : ascii → bool)
| LazyStar (p : ascii → bool)
| Grp (n : nat) (r : t)
| Eos.

(** [r?], [p+] and a literal character. *)
Definition Opt (r : t) : t := Alt r Eps.
Definition Plus (p : ascii → bool) : t := Seq (Cls p) (Star p).
Definition Chr (a : ascii) : t := Cls (PyStr.is_char a).

(** The double quote character. *)
Definition dquote : ascii := "034".

(** [.] without [re.DOTALL] *)
Definition dot (c : ascii) : bool := negb (PyStr.is_char "010" c).

(** Captured groups, most recent first. *)
Definition groups : Type := list (nat * string).

Fixpoint group (n : nat) (g : groups) : option string :=
  match g with
  | [] => None
  | (m, s) :: g' => if Nat.eqb n m then Some s else group n g'
  end.

Section matcher.
Context {A : Type}.

Fixpoint star_greedy (p : ascii → bool) (s : string)
    (k : string → option A) : option A :=
  match s with
  | String c s' =>
      if p c then
        match star_greedy p s' k with
        | Some a => Some a
        | None => k s
        end
      else k s
  | EmptyString => k s
  end.

Fixpoint star_lazy (p : ascii → bool) (s : string)
    (k : string → option A) : option A :=
  match k s with
  | Some a => Some a
  | None =>
      match s with
      | String c s' => if p c then star_lazy p s' k else None
      | EmptyString => None
      end
  end.

Fixpoint run (r : t) (s : string) (g : groups)
    (k : string → groups → option A) : option A :=
  match r with
  | Eps => k s g
  | Cls p =>
      match s with
      | String c s' => if p c then k s' g else None
      | EmptyString => None
      end
  | Seq r1 r2 => run r1 s g (λ s' g', run r2 s' g' k)
  | Alt r1 r2 =>
      match run r1 s g k with
      | Some a => Some a
      | None => run r2 s g k
      end
  | Star p => star_greedy p s (λ s', k s' g)
  | LazyStar p => star_lazy p s (λ s', k s' g)
  | Grp n r' =>
      run r' s g (λ s' g',
        k s' ((n, PyStr.take (String.length s - String.length s') s) :: g'))
  | Eos =>
      (* [$]: the end, or just before a final newline *)
      match s with
      | EmptyString => k s g
      | String c EmptyString => if PyStr.is_char "010" c then k s g else None
      | _ => None
      end
  end.

End matcher.

(** [re.match(r, s)]: anchored at the start, so a leading [^] adds
    nothing.  The answer keeps the unread rest of the subject. *)
Definition match_prefix (r : t) (s : string) : option (string * groups) :=
  run r s [] (λ rest g, Some (rest, g)).

Definition match_ (r : t) (s : string) : option groups :=
  snd <$> match_prefix r s.

(** [re.finditer(r, s)]: scan left to right, each match starting where
    the previous one ended.  [skip] counts the characters of a match still
    to be passed over. *)
Fixpoint finditer_from (r : t) (s : string) (skip : nat) : list groups :=
  match skip with
  | S n =>
      match s with
      | String _ s' => finditer_from r s' n
      | EmptyString => []
      end
  | O =>
      match match_prefix r s with
      | Some (rest, g) =>
          g :: match s with
               | String _ s' =>
                   finditer_from r s'
                     (String.length s - String.length rest - 1)
               | EmptyString => []
               end
      | None =>
          match s with
          | String _ s' => finditer_from r s' 0
          | EmptyString => []
          end
      end
  end.

Definition finditer (r : t) (s : string) : list groups := finditer_from r s 0.

End Re.

(** ** The two patterns of [PrometheusFileParser.parse] *)

Module Pattern.
Import Re.

Definition name_start (c : ascii) : bool :=
  (PyStr.is_alpha c || PyStr.is_char "_" c || PyStr.is_char ":" c)%bool.
Definition name_char (c : ascii) : bool :=
  (name_start c || PyStr.is_digit c)%bool.
Definition label_start (c : ascii) : bool :=
  (PyStr.is_alpha c || PyStr.is_char "_" c)%bool.
Definition label_char (c : ascii) : bool :=
  (label_start c || PyStr.is_digit c)%bool.
Definition sign (c : ascii) : bool :=
  (PyStr.is_char "-" c || PyStr.is_char "+" c)%bool.
Definition exp_mark (c : ascii) : bool :=
  (PyStr.is_char "e" c || PyStr.is_char "E" c)%bool.

(** [metric_pattern]: group 1 is one of [a-zA-Z_:] followed by a greedy
    run of [a-zA-Z0-9_:]. *)
Definition metric_pattern : t := Grp 1 (Seq (Cls name_start) (Star name_char)).

(** [labels_pattern]: an optional brace block; group 2 is the lazy run of
    any characters between the braces. *)
Definition labels_pattern : t :=
  Opt (Seq (Chr "{") (Seq (Grp 2 (LazyStar dot)) (Chr "}"))).

(** [value_pattern]: group 3 is an optional sign, a greedy run of digits,
    an optional point, one or more digits, and an optional exponent (e or
    E, optional sign, one or more digits). *)
Definition value_pattern : t :=
  Grp 3
    (Seq (Opt (Cls sign))
      (Seq (Star PyStr.is_digit)
        (Seq (Opt (Chr "."))
          (Seq (Plus PyStr.is_digit)
            (Opt (Seq (Cls exp_mark)
                   (Seq (Opt (Cls sign)) (Plus PyStr.is_digit)))))))).

(** [timestamp_pattern]: optionally a space and group 4, one or more
    digits. *)
Definition timestamp_pattern : t :=
  Opt (Seq (Chr " ") (Grp 4 (Plus PyStr.is_digit))).

(** [pattern]: metric, labels, a space, value, timestamp, end. *)
Definition pattern : t :=
  Seq metric_pattern
    (Seq labels_pattern
      (Seq (Chr " ") (Seq value_pattern (Seq timestamp_pattern Eos)))).

(** [label_pattern]: group 1 is an identifier, then an equals sign and a
    double quote, group 2 the lazy run up to the next double quote. *)
Definition label_pattern : t :=
  Seq (Grp 1 (Seq (Cls label_start) (Star label_char)))
    (Seq (Chr "=")
      (Seq (Chr dquote) (Seq (Grp 2 (LazyStar dot)) (Chr dquote)))).

End Pattern.

(** ** Floats *)

Module Float.

Definition digit_value (c : ascii) : Z := Z.of_N (PyStr.code c - 48).

(** Reads a run of decimal digits: the number read so far, how many
    digits were read, and the rest. *)
Fixpoint read_digits (s : string) (acc : Z) (n : nat) : Z * nat * string :=
  match s with
  | String c s' =>
      if PyStr.is_digit c then read_digits s' (10 * acc + digit_value c)%Z (S n)
      else (acc, n, s)
  | EmptyString => (acc, n, s)
  end.

(** Reads an optional sign: [true] for minus. *)
Definition read_sign (s : string) : bool * string :=
  match s with
  | String c s' =>
      if PyStr.is_char "-" c then (true, s')
      else if PyStr.is_char "+" c then (false, s')
      else (false, s)
  | EmptyString => (false, s)
  end.

Definition pow10 (e : Z) : Q :=
  if (0 <=? e)%Z then inject_Z (10 ^ e) else / inject_Z (10 ^ (- e)).

(** Reads an optional exponent part; [None] when an exponent mark is not
    followed by digits up to the end, or when anything else is left. *)
Definition read_exponent (s : string) : option Z :=
  match s with
  | EmptyString => Some 0%Z
  | String c s' =>
      if Pattern.exp_mark c then
        let '(neg, s1) := read_sign s' in
        match read_digits s1 0 0 with
        | (_, O, _) => None
        | (e, S _, EmptyString) => Some (if neg then (- e)%Z else e)
        | (_, S _, String _ _) => None
        end
      else None
  end.

(** [float(text)] on a decimal literal: sign, digits, optional point and
    digits, optional exponent.  [None] is Python's [ValueError]. *)
Definition of_string (text : string) : option Q :=
  let '(neg, s0) := read_sign text in
  let '(ip, ni, s1) := read_digits s0 0 0 in
  let '(fp, nf, s2) :=
    match s1 with
    | String c s1' =>
        if PyStr.is_char "." c then read_digits s1' 0 0 else (0%Z, O, s1)
    | EmptyString => (0%Z, O, s1)
    end in
  match (ni + nf)%nat with
  | O => None
  | S _ =>
      e ← read_exponent s2;
      let mant := (ip * 10 ^ Z.of_nat nf + fp)%Z in
      let v := (inject_Z mant * pow10 (e - Z.of_nat nf))%Q in
      Some (Qred (if neg then - v else v)%Q)
  end.

Definition ltb (x y : Q) : bool := negb (Qle_bool y x).

(** The builtins [min(a, b)] and [max(a, b)]: the first argument wins a
    tie. *)
Definition min2 (a b : Q) : Q := if ltb b a then b else a.
Definition max2 (a b : Q) : Q := if ltb a b then b else a.

(** [min(values)] and [max(values)] on a non-empty list. *)
Definition min_list (l : list Q) : option Q :=
  match l with
  | [] => None
  | x :: l' => Some (fold_left min2 l' x)
  end.
Definition max_list (l : list Q) : option Q :=
  match l with
  | [] => None
  | x :: l' => Some (fold_left max2 l' x)
  end.

Definition sum (l : list Q) : Q := fold_right Qplus 0%Q l.

Definition of_nat (n : nat) : Q := inject_Z (Z.of_nat n).

(** [statistics.mean] *)
Definition mean (l : list Q) : Q := (sum l / of_nat (length l))%Q.

(** [statistics.variance]: the sample variance. *)
Definition variance (l : list Q) : Q :=
  let m := mean l in
  (sum (map (λ x, (x - m) * (x - m)) l) / of_nat (length l - 1))%Q.

(** [math.sqrt], rounded down to 64 binary places of the reduced
    fraction.  Like the float result it is zero at zero and positive at
    every positive argument; the statements below use nothing else of
    it. *)
Definition sqrt (x : Q) : Q :=
  let y := Qred x in
  Qmake (Z.sqrt (Qnum y * Zpos (Qden y) * 4 ^ 64)) (Qden y * 2 ^ 64).

(** [statistics.stdev] *)
Definition stdev (l : list Q) : Q := sqrt (variance l).

End Float.

(** ** Data model *)

(** [MetricSample]: [labels] is the dict the parser filled, in insertion
    order. *)
Record MetricSample : Type := mkSample {
  value : Q;
  labels : Dict.t string;
}.

(** [MetricDefinition] *)
Record MetricDefinition : Type := mkMetric {
  name : string;
  metric_type : string;
  help_text : string;
  samples : list MetricSample;
  min_value : option Q;
  max_value : option Q;
  mean_value : option Q;
  std_dev : option Q;
  is_counter : bool;
}.

Definition set_help_text (h : string) (m : MetricDefinition) : MetricDefinition :=
  mkMetric (name m) (metric_type m) h (samples m) (min_value m) (max_value m)
    (mean_value m) (std_dev m) (is_counter m).

Definition set_metric_type (ty : string) (m : MetricDefinition) : MetricDefinition :=
  mkMetric (name m) ty (help_text m) (samples m) (min_value m) (max_value m)
    (mean_value m) (std_dev m) (is_counter m).

Definition set_samples (l : list MetricSample) (m : MetricDefinition) : MetricDefinition :=
  mkMetric (name m) (metric_type m) (help_text m) l (min_value m) (max_value m)
    (mean_value m) (std_dev m) (is_counter m).

(** [MetricDefinition.__post_init__]: with samples, recompute the four
    statistics; in every case recompute [is_counter]. *)
Definition post_init (m : MetricDefinition) : MetricDefinition :=
  let counter := String.eqb (PyStr.lower (metric_type m)) "counter" in
  match samples m with
  | [] =>
      mkMetric (name m) (metric_type m) (help_text m) (samples m)
        (min_value m) (max_value m) (mean_value m) (std_dev m) counter
  | _ :: _ =>
      let values := map value (samples m) in
      mkMetric (name m) (metric_type m) (help_text m) (samples m)
        (Float.min_list values) (Float.max_list values)
        (Some (Float.mean values))
        (Some (if Nat.ltb 1 (length values) then Float.stdev values else 0%Q))
        counter
  end.

(** The dataclass constructor with the four statistics and [is_counter]
    left at their defaults; it ends by running [__post_init__]. *)
Definition new_metric (n ty h : string) (l : list MetricSample) : MetricDefinition :=
  post_init (mkMetric n ty h l None None None None false).

(** ** [PrometheusFileParser.parse] *)

Module Parser.

Definition text_of (n : nat) (g : Re.groups) : string :=
  default EmptyString (Re.group n g).

(** The loop over [re.finditer(label_pattern, labels_str)]. *)
Definition parse_labels (labels_str : string) : Dict.t string :=
  fold_left
    (λ (acc : Dict.t string) g, Dict.set (text_of 1 g) (text_of 2 g) acc)
    (Re.finditer Pattern.label_pattern labels_str) [].

(** The body of the loop over the lines.  [None]: an exception escapes. *)
Definition parse_line (metrics : Dict.t MetricDefinition) (raw : string)
    : option (Dict.t MetricDefinition) :=
  let line := PyStr.strip raw in
  if (String.eqb line "" || PyStr.startswith "#" line)%bool then
    if PyStr.startswith "# HELP " line then
      match PyStr.split_once " " (PyStr.drop 7 line) with
      | Some (n, h) =>
          match Dict.get n metrics with
          | None => Some (Dict.set n (new_metric n "" h []) metrics)
          | Some m => Some (Dict.set n (set_help_text h m) metrics)
          end
      | None => Some metrics
      end
    else if PyStr.startswith "# TYPE " line then
      match PyStr.split_once " " (PyStr.drop 7 line) with
      | Some (n, ty) =>
          match Dict.get n metrics with
          | None => Some (Dict.set n (new_metric n ty "" []) metrics)
          | Some m => Some (Dict.set n (set_metric_type ty m) metrics)
          end
      | None => Some metrics
      end
    else Some metrics
  else
    match Re.match_ Pattern.pattern line with
    | Some g =>
        let n := text_of 1 g in
        let labels_str := text_of 2 g in
        v ← Float.of_string (text_of 3 g);
        let lbls :=
          if String.eqb labels_str "" then [] else parse_labels labels_str in
        (* a name seen for the first time gets a fresh definition; the
           sample is then appended to the definition stored under it *)
        let m :=
          match Dict.get n metrics with
          | None => new_metric n "" "" []
          | Some m => m
          end in
        Some (Dict.set n (set_samples (samples m ++ [mkSample v lbls]) m) metrics)
    | None => Some metrics
    end.

Fixpoint parse_lines (metrics : Dict.t MetricDefinition) (lines : list string)
    : option (Dict.t MetricDefinition) :=
  match lines with
  | [] => Some metrics
  | l :: rest => metrics' ← parse_line metrics l; parse_lines metrics' rest
  end.

(** Everything after the file has been read. *)
Definition parse_content (content : string) : option (Dict.t MetricDefinition) :=
  metrics ← parse_lines [] (PyStr.split "010" (PyStr.strip content));
  Some (map (λ '(n, m), (n, post_init m)) metrics).

(** [parse()]: the file is [None] when opening or reading it raises. *)
Definition parse (file : option string) : option (Dict.t MetricDefinition) :=
  content ← file; parse_content content.

End Parser.

(** ** The [random] module as an oracle *)

Record Rng : Type := mkRng {
  unit_draw : nat → Q;     (* the successive results of [random.random()] *)
  normal_draw : nat → Q;   (* the successive standard normal deviates *)
  cursor : nat;
}.

Definition advance (r : Rng) : Rng :=
  mkRng (unit_draw r) (normal_draw r) (S (cursor r)).

(** [random.random()] answers in the half-open unit interval. *)
Definition rng_ok (r : Rng) : Prop :=
  ∀ i, (0 <= unit_draw r i)%Q ∧ (unit_draw r i < 1)%Q.

(** [random.uniform(a, b)] is [a + (b - a) * random()]. *)
Definition uniform (a b : Q) (r : Rng) : Q * Rng :=
  ((a + (b - a) * unit_draw r (cursor r))%Q, advance r).

(** [random.gauss(mu, sigma)] is [mu + z * sigma] for a standard normal
    deviate [z]. *)
Definition gauss (mu sigma : Q) (r : Rng) : Q * Rng :=
  ((mu + normal_draw r (cursor r) * sigma)%Q, advance r).

(** ** [MetricGenerator] *)

(** What one call sees of the outside: [time.time()] and the directory.
    [listing] is [None] when [os.listdir] raises; a file is [None] when
    opening or reading it raises. *)
Record World : Type := mkWorld {
  now : Q;
  listing : option (list (string * option string));
}.

Record MetricGenerator : Type := mkGenerator {
  metrics_dir : string;
  metrics : Dict.t MetricDefinition;
  counter_state : gmap string (gmap string Q);
  scan_interval : Q;
  last_scan_time : Q;
}.

(** [MetricGenerator.__init__] *)
Definition init (dir : string) : MetricGenerator :=
  mkGenerator dir [] ∅ 60%Q 0%Q.

(** Python compares the [(k, v)] tuples of [labels.items()]: by the first
    component, and by the second when the first are equal. *)
Definition pair_le (a b : string * string) : Prop :=
  if decide (a.1 = b.1) then String.le a.2 b.2 else String.le a.1 b.1.

Global Instance pair_le_dec : RelDecision pair_le.
Proof. intros a b. unfold pair_le. destruct (decide (a.1 = b.1)); apply _. Defined.

(** [sorted(self.metrics.items())]: names are unique in a dict, so the
    comparison of two items is decided by the names. *)
Definition name_le (a b : string * MetricDefinition) : Prop := String.le a.1 b.1.

Global Instance name_le_dec : RelDecision name_le.
Proof. intros a b. unfold name_le. apply _. Defined.

(** [_labels_to_key] *)
Definition labels_to_key (lbls : Dict.t string) : string :=
  match lbls with
  | [] => ""
  | _ :: _ =>
      PyStr.join "," (map (λ '(k, v), k +:+ "=" +:+ v) (merge_sort pair_le lbls))
  end.

(** [_key_to_labels] *)
Definition key_to_labels (key : string) : Dict.t string :=
  if String.eqb key "" then []
  else
    fold_left
      (λ (acc : Dict.t string) item,
         match PyStr.split_once "=" item with
         | Some (k, v) => Dict.set k v acc
         | None => acc
         end)
      (PyStr.split "," key) [].

(** *** [scan_directory] *)

(** Merging the metrics of one file into [new_metrics]. *)
Definition merge_file (new_metrics file_metrics : Dict.t MetricDefinition)
    : Dict.t MetricDefinition :=
  fold_left
    (λ (acc : Dict.t MetricDefinition) '(n, metric),
       match Dict.get n acc with
       | Some m0 => Dict.set n (set_samples (samples m0 ++ samples metric) m0) acc
       | None => Dict.set n metric acc
       end)
    file_metrics new_metrics.

(** The loop over [os.listdir]; [None] when a [parse()] raises. *)
Fixpoint scan_files (files : list (string * option string))
    (new_metrics : Dict.t MetricDefinition) : option (Dict.t MetricDefinition) :=
  match files with
  | [] => Some new_metrics
  | (filename, file) :: rest =>
      if PyStr.endswith ".prom" filename then
        file_metrics ← Parser.parse file;
        scan_files rest (merge_file new_metrics file_metrics)
      else scan_files rest new_metrics
  end.

(** The innermost loop of the seeding: one sample of a new counter. *)
Definition seed_sample (metric : MetricDefinition)
    (st : gmap string Q * Rng) (sample : MetricSample) : gmap string Q * Rng :=
  let '(entries, r) := st in
  let label_key := labels_to_key (labels sample) in
  match entries !! label_key with
  | Some _ => st
  | None =>
      match min_value metric, max_value metric with
      | Some lo, Some hi =>
          let '(start_value, r') := uniform lo hi r in
          (<[label_key := start_value]> entries, r')
      | _, _ => st
      end
  end.

Definition seed_metric (st : gmap string (gmap string Q) * Rng)
    (item : string * MetricDefinition) : gmap string (gmap string Q) * Rng :=
  let '(cs, r) := st in
  let '(n, metric) := item in
  match is_counter metric, cs !! n with
  | true, None =>
      let '(entries, r') := fold_left (seed_sample metric) (samples metric) (∅, r) in
      (<[n := entries]> cs, r')
  | _, _ => st
  end.

Definition scan_directory (w : World) (g : MetricGenerator) (r : Rng)
    : MetricGenerator * Rng :=
  if Float.ltb (now w - last_scan_time g) (scan_interval g) then (g, r)
  else
    let skipped :=
      mkGenerator (metrics_dir g) (metrics g) (counter_state g)
        (scan_interval g) (now w) in
    match listing w ≫= (λ files, scan_files files []) with
    | None => (skipped, r)    (* the [except] clause: log and go on *)
    | Some new_metrics =>
        let '(cs, r') := fold_left seed_metric new_metrics (counter_state g, r) in
        (mkGenerator (metrics_dir g) new_metrics cs (scan_interval g) (now w), r')
    end.

(** *** [generate_metrics] *)

(** One line of the output.  A value line keeps the label key of its
    group next to the labels written out: the key names the series. *)
Inductive OutLine : Type :=
| NoMetricsLine
| HelpLine (n h : string)
| TypeLine (n ty : string)
| ValueLine (n key : string) (lbls : Dict.t string) (v : Q).

Record GenState : Type := mkGenState {
  st_counters : gmap string (gmap string Q);
  st_rng : Rng;
  st_out : list OutLine;
}.

(** [label_groups] *)
Definition group_samples (l : list MetricSample) : Dict.t (list Q) :=
  fold_left
    (λ (groups : Dict.t (list Q)) sample,
       let label_key := labels_to_key (labels sample) in
       Dict.set label_key
         (default [] (Dict.get label_key groups) ++ [value sample]) groups)
    l [].

(** [metric.std_dev and metric.std_dev > 0] *)
Definition std_positive (m : MetricDefinition) : option Q :=
  match std_dev m with
  | Some sd => if Float.ltb 0 sd then Some sd else None
  | None => None
  end.

(** The increment of a counter: [abs(random.gauss(0, std_dev))], or
    [random.uniform(0.1, 1.0)]. *)
Definition counter_increment (metric : MetricDefinition) (r : Rng) : Q * Rng :=
  match std_positive metric with
  | Some sd => let '(x, r') := gauss 0 sd r in (Qabs x, r')
  | None => uniform (1 # 10) 1 r
  end.

(** The value of any other metric: a normal draw clamped into the range,
    or a uniform draw from the range. *)
Definition gauge_value (metric : MetricDefinition) (lo hi : Q) (r : Rng) : Q * Rng :=
  match std_positive metric, mean_value metric with
  | Some sd, Some mu =>
      let '(x, r') := gauss mu sd r in
      (Float.max2 (Float.min2 x hi) lo, r')
  | _, _ => uniform lo hi r
  end.

(** [self.counter_state[name][label_key]], when both keys are there. *)
Definition stored (cs : gmap string (gmap string Q)) (n key : string) : option Q :=
  entries ← cs !! n; entries !! key.

(** The body of the loop over [label_groups.items()]. *)
Definition emit_group (n : string) (metric : MetricDefinition)
    (st : GenState) (grp : string * list Q) : GenState :=
  let label_key := grp.1 in
  let lbls := key_to_labels label_key in
  if is_counter metric then
    match st_counters st !! n with
    | Some entries =>
        match entries !! label_key with
        | Some current_value =>
            let '(increment, r') := counter_increment metric (st_rng st) in
            let new_value := (current_value + increment)%Q in
            mkGenState
              (<[n := <[label_key := new_value]> entries]> (st_counters st))
              r' (st_out st ++ [ValueLine n label_key lbls new_value])
        | None => st
        end
    | None => st
    end
  else
    match min_value metric, max_value metric with
    | Some lo, Some hi =>
        let '(v, r') := gauge_value metric lo hi (st_rng st) in
        mkGenState (st_counters st) r'
          (st_out st ++ [ValueLine n label_key lbls v])
    | _, _ => st
    end.

Definition metadata_lines (n : string) (metric : MetricDefinition) : list OutLine :=
  (if String.eqb (help_text metric) "" then [] else [HelpLine n (help_text metric)])
  ++ (if String.eqb (metric_type metric) "" then [] else [TypeLine n (metric_type metric)]).

(** The body of the loop over [sorted(self.metrics.items())]. *)
Definition emit_metric (st : GenState) (item : string * MetricDefinition) : GenState :=
  let '(n, metric) := item in
  let st1 :=
    mkGenState (st_counters st) (st_rng st) (st_out st ++ metadata_lines n metric) in
  fold_left (emit_group n metric) (group_samples (samples metric)) st1.

(** [generate_metrics], up to the final join: the lines, the generator
    and the oracle afterwards. *)
Definition generate_lines (w : World) (g : MetricGenerator) (r : Rng)
    : list OutLine * MetricGenerator * Rng :=
  let '(g1, r1) := scan_directory w g r in
  match metrics g1 with
  | [] => ([NoMetricsLine], g1, r1)
  | _ :: _ =>
      let st :=
        fold_left emit_metric (merge_sort name_le (metrics g1))
          (mkGenState (counter_state g1) r1 []) in
      (st_out st,
       mkGenerator (metrics_dir g1) (metrics g1) (st_counters st)
         (scan_interval g1) (last_scan_time g1),
       st_rng st)
  end.

Section rendering.
(** How a float is printed ([repr]) is left open. *)
Variable show_float : Q → string.

Definition quoted (s : string) : string :=
  String Re.dquote (s +:+ String Re.dquote "").

Definition render_line (l : OutLine) : string :=
  match l with
  | NoMetricsLine => "# No metrics found"
  | HelpLine n h => "# HELP " +:+ n +:+ " " +:+ h
  | TypeLine n ty => "# TYPE " +:+ n +:+ " " +:+ ty
  | ValueLine n _ [] v => n +:+ " " +:+ show_float v
  | ValueLine n _ lbls v =>
      n +:+ "{"
        +:+ PyStr.join "," (map (λ '(k, x), k +:+ "=" +:+ quoted x) lbls)
        +:+ "}" +:+ " " +:+ show_float v
  end.

(** The string [generate_metrics] returns. *)
Definition generate_metrics (w : World) (g : MetricGenerator) (r : Rng)
    : string * MetricGenerator * Rng :=
  let '(lines, g', r') := generate_lines w g r in
  (PyStr.join (String "010" "") (map render_line lines) +:+ String "010" "", g', r').
End rendering.

(** * Vocabulary of the statements *)

(** ** Well-formed catalogs *)

(** Where a definition has both a minimum and a maximum, the minimum is
    not above the maximum. *)
Definition stats_wf (m : MetricDefinition) : Prop :=
  ∀ lo hi, min_value m = Some lo → max_value m = Some hi → (lo <= hi)%Q.

(** Names are unique and every definition is well formed.  The empty
    catalog of [init] is well formed, and every scan and every call keep
    the catalog well formed. *)
Definition catalog_wf (d : Dict.t MetricDefinition) : Prop :=
  NoDup (Dict.keys d) ∧ Forall (λ kv, stats_wf kv.2) d.

(** The four statistics of a definition, and those [__post_init__]
    computes from a non-empty sample list. *)
Definition stats (m : MetricDefinition) : option Q * option Q * option Q * option Q :=
  (min_value m, max_value m, mean_value m, std_dev m).

Definition list_stats (l : list MetricSample) : option Q * option Q * option Q * option Q :=
  let values := map value l in
  (Float.min_list values, Float.max_list values, Some (Float.mean values),
   Some (if Nat.ltb 1 (length values) then Float.stdev values else 0%Q)).

(** The statistics of a definition are absent, or they are those of a
    non-empty initial part of its samples: the samples it had when
    [__post_init__] last ran. *)
Definition stats_observed (m : MetricDefinition) : Prop :=
  stats m = (None, None, None, None)
  ∨ ∃ l0, l0 ≠ [] ∧ l0 `prefix_of` samples m ∧ stats m = list_stats l0.

Definition catalog_observed (d : Dict.t MetricDefinition) : Prop :=
  Forall (λ kv, stats_observed kv.2) d.

(** ** The counter store *)

(** The counter store only grows, and every entry only goes up. *)
Definition store_le (cs cs' : gmap string (gmap string Q)) : Prop :=
  ∀ n key v, stored cs n key = Some v →
    ∃ v', stored cs' n key = Some v' ∧ (v <= v')%Q.

(** ** What the loops of [generate_metrics] do *)

(** What one group does: nothing, a counter advance, or a gauge draw. *)
Inductive group_step (n : string) (metric : MetricDefinition)
    (st : GenState) (key : string) (st' : GenState) : Prop :=
| step_silent :
    st' = st →
    (if is_counter metric then stored (st_counters st) n key = None
     else min_value metric = None ∨ max_value metric = None) →
    group_step n metric st key st'
| step_counter prev :
    is_counter metric = true →
    stored (st_counters st) n key = Some prev →
    let inc := (counter_increment metric (st_rng st)).1 in
    st_out st' = st_out st ++ [ValueLine n key (key_to_labels key) (prev + inc)%Q] →
    stored (st_counters st') n key = Some (prev + inc)%Q →
    (∀ n' key', (n', key') ≠ (n, key) →
       stored (st_counters st') n' key' = stored (st_counters st) n' key') →
    unit_draw (st_rng st') = unit_draw (st_rng st) →
    group_step n metric st key st'
| step_gauge lo hi :
    is_counter metric = false →
    min_value metric = Some lo → max_value metric = Some hi →
    st_out st' = st_out st
      ++ [ValueLine n key (key_to_labels key) (gauge_value metric lo hi (st_rng st)).1] →
    st_counters st' = st_counters st →
    unit_draw (st_rng st') = unit_draw (st_rng st) →
    group_step n metric st key st'.

(** [value_line_ok n metric cs cs' u key x]: the value [x] written for the
    series [(n, key)] during a run from counter store [cs] to counter store
    [cs'], with [u] the stream of unit draws.  For a counter it is the
    value stored before plus the increment, and it is the value stored
    afterwards; for any other metric it is a gauge draw. *)
Definition value_line_ok (n : string) (metric : MetricDefinition)
    (cs cs' : gmap string (gmap string Q)) (u : nat → Q) (key : string) (x : Q) : Prop :=
  if is_counter metric then
    ∃ prev r0, unit_draw r0 = u
      ∧ stored cs n key = Some prev
      ∧ x = (prev + (counter_increment metric r0).1)%Q
      ∧ stored cs' n key = Some x
  else
    ∃ lo hi r0, unit_draw r0 = u
      ∧ min_value metric = Some lo ∧ max_value metric = Some hi
      ∧ x = (gauge_value metric lo hi r0).1.

(** A line that belongs to the metric [(n, metric)]: one of its metadata
    lines, or the value line of one of its label groups. *)
Definition line_of (n : string) (metric : MetricDefinition)
    (cs cs' : gmap string (gmap string Q)) (u : nat → Q) (l : OutLine) : Prop :=
  l ∈ metadata_lines n metric
  ∨ ∃ key x, l = ValueLine n key (key_to_labels key) x
      ∧ key ∈ Dict.keys (group_samples (samples metric))
      ∧ value_line_ok n metric cs cs' u key x.

(** ** The three outcomes of [scan_directory] *)

Inductive ScanOutcome : Type :=
| Throttled                                  (* too early: nothing happens *)
| Abandoned                                  (* an exception reached [except] *)
| Rebuilt (cat : Dict.t MetricDefinition).   (* the new catalog is installed *)

Definition scan_outcome (w : World) (g : MetricGenerator) : ScanOutcome :=
  if Float.ltb (now w - last_scan_time g) (scan_interval g) then Throttled
  else
    match listing w ≫= (λ files, scan_files files []) with
    | None => Abandoned
    | Some cat => Rebuilt cat
    end.

(** ** The files of one scan *)

(** The results of [parse()] for the selected files, in listing order. *)
Fixpoint parsed_files (files : list (string * option string))
    : option (list (Dict.t MetricDefinition)) :=
  match files with
  | [] => Some []
  | (filename, file) :: rest =>
      if PyStr.endswith ".prom" filename then
        fm ← Parser.parse file; ps ← parsed_files rest; Some (fm :: ps)
      else parsed_files rest
  end.

(** The first definition of a name in processing order. *)
Fixpoint first_def (n : string) (parsed : list (Dict.t MetricDefinition))
    : option MetricDefinition :=
  match parsed with
  | [] => None
  | fm :: rest =>
      match Dict.get n fm with
      | Some m => Some m
      | None => first_def n rest
      end
  end.

(** The samples one file has for a name. *)
Definition file_samples (n : string) (fm : Dict.t MetricDefinition) : list MetricSample :=
  match Dict.get n fm with
  | Some m => samples m
  | None => []
  end.

(** ** Sequences of calls *)

(** What is recorded of one call: the generator right after the scan
    attempt, the lines written, and the generator at the end. *)
Record Call : Type := mkCall {
  call_scanned : MetricGenerator;
  call_out : list OutLine;
  call_after : MetricGenerator;
}.

(** Successive calls of [generate_metrics], one per world. *)
Fixpoint run (ws : list World) (g : MetricGenerator) (r : Rng) : list Call :=
  match ws with
  | [] => []
  | w :: ws' =>
      let res := generate_lines w g r in
      mkCall (scan_directory w g r).1 res.1.1 res.1.2 :: run ws' res.1.2 res.2
  end.



(** ** Fixtures used by the examples *)

Module Fixture.

Definition nl : string := String "010" "".

(** A constant oracle: every unit draw is 1/2, every normal draw 3/2. *)
Definition rng0 : Rng := mkRng (λ _, 1 # 2)%Q (λ _, 3 # 2)%Q 0.

(** One counter with the series [a=1]. *)
Definition counter_v1 : string :=
  "# TYPE c counter" +:+ nl +:+ "c{a=" +:+ quoted "1" +:+ "} 5".


Definition dir_v1 : World := mkWorld 100 (Some [("c.prom", Some counter_v1)]).


End Fixture.

Module FixtureTwoFiles.
Import Fixture.

(** Two files that both define the metric [m]. *)
Definition first_file : string :=
  "# HELP m first help" +:+ nl +:+ "# TYPE m gauge" +:+ nl +:+ "m 1".
Definition second_file : string :=
  "# HELP m second help" +:+ nl +:+ "# TYPE m counter" +:+ nl +:+ "m 5".

Definition two_files : list (string * option string) :=
  [("first.prom", Some first_file); ("second.prom", Some second_file)].

End FixtureTwoFiles.

Module FixtureGauge.
Import Fixture.

(** The gauge of the specification's scenario: samples 5, 10 and 15. *)
Definition temp_file : string :=
  "# TYPE temp_c gauge" +:+ nl +:+ "temp_c 5" +:+ nl +:+ "temp_c 10" +:+ nl +:+ "temp_c 15".


End FixtureGauge.

Module FixtureIdle.

(** A file that only documents a metric. *)
Definition idle_dir : World :=
  mkWorld 100 (Some [("idle.prom", Some "# HELP idle nothing to report")]).

End FixtureIdle.

Module FixtureFlat.
Import Fixture.





End FixtureFlat.

Module FixtureTrace.

(** Two calls: the first scans the counter fixture, the second comes ten
    seconds later and is throttled. *)
Definition two_calls : list World := [Fixture.dir_v1; mkWorld 110 None].


End FixtureTrace.

Module FixtureComma.

(** A sample line whose label value holds a comma. *)
Definition comma_line : string := "m{a=" +:+ quoted "x,y" +:+ "} 1".

Definition comma_dir : World := mkWorld 100 (Some [("m.prom", Some comma_line)]).

End FixtureComma.

(** * Vocabulary of the further properties *)

(** ** What a pattern matches

    [matches r text new]: the pattern [r] can match exactly [text], and
    doing so captures the groups [new], most recent first. *)

Module ReLang.

Fixpoint all_chars (p : ascii → bool) (s : string) : Prop :=
  match s with
  | EmptyString => True
  | String c s' => p c = true ∧ all_chars p s'
  end.

Fixpoint matches (r : Re.t) (text : string) (new : Re.groups) : Prop :=
  match r with
  | Re.Eps | Re.Eos => text = "" ∧ new = []
  | Re.Cls p => (∃ c, text = String c "" ∧ p c = true) ∧ new = []
  | Re.Seq r1 r2 =>
      ∃ t1 t2 n1 n2,
        text = t1 +:+ t2 ∧ new = n2 ++ n1 ∧ matches r1 t1 n1 ∧ matches r2 t2 n2
  | Re.Alt r1 r2 => matches r1 text new ∨ matches r2 text new
  | Re.Star p | Re.LazyStar p => all_chars p text ∧ new = []
  | Re.Grp n r' => ∃ inner, new = (n, text) :: inner ∧ matches r' text inner
  end.

End ReLang.

(** ** Decimal literals *)

Module Literal.
Import ReLang.

(** Nothing, or one sign character. *)
Definition sign_part (s : string) : Prop :=
  s = "" ∨ ∃ c, s = String c "" ∧ Pattern.sign c = true.

(** One or more digits. *)
Definition digits1 (s : string) : Prop :=
  ∃ c d, s = String c d ∧ PyStr.is_digit c = true ∧ all_chars PyStr.is_digit d.

(** Nothing, or an exponent mark, an optional sign and digits. *)
Definition exp_part (s : string) : Prop :=
  s = "" ∨ ∃ e sg d, s = String e (sg +:+ d)
    ∧ Pattern.exp_mark e = true ∧ sign_part sg ∧ digits1 d.

(** The texts [value_pattern] matches. *)
Definition float_literal (s : string) : Prop :=
  ∃ sg d1 dot d2 ex,
    s = sg +:+ d1 +:+ dot +:+ d2 +:+ ex
    ∧ sign_part sg ∧ all_chars PyStr.is_digit d1
    ∧ (dot = "" ∨ dot = ".") ∧ digits1 d2 ∧ exp_part ex.


End Literal.

(** ** The groups of a matched sample line *)

(** A metric name of the sample grammar. *)
Definition metric_name (s : string) : Prop :=
  ∃ c rest, s = String c rest ∧ Pattern.name_start c = true
    ∧ ReLang.all_chars Pattern.name_char rest.

(** A label name of the label grammar. *)
Definition label_name (s : string) : Prop :=
  ∃ c rest, s = String c rest ∧ Pattern.label_start c = true
    ∧ ReLang.all_chars Pattern.label_char rest.

(** The groups a match of [pattern] leaves: the name, the text between
    the braces when there is a brace block, the value, the timestamp when
    there is one. *)
Definition sample_groups (g : Re.groups) (n : string) (lbl : option string)
    (v : string) (ts : option string) : Prop :=
  g = match ts with Some t => [(4, t)] | None => [] end
      ++ [(3, v)]
      ++ match lbl with Some l => [(2, l)] | None => [] end
      ++ [(1, n)].

(** ** Catalog entries and label dicts *)

(** The definition stored under a key carries that key as its name, and
    its [is_counter] flag is the case-insensitive test of its declared
    type. *)
Definition entry_consistent (kv : string * MetricDefinition) : Prop :=
  name kv.2 = kv.1
  ∧ is_counter kv.2 = String.eqb (PyStr.lower (metric_type kv.2)) "counter".

(** A label dict with unique names, each an identifier of the label
    grammar. *)
Definition labels_wf (lbls : Dict.t string) : Prop :=
  NoDup (Dict.keys lbls) ∧ ∀ k v, (k, v) ∈ lbls → label_name k.

Definition samples_wf (kv : string * MetricDefinition) : Prop :=
  Forall (λ s, labels_wf (labels s)) (samples kv.2).

(** The first call of the two-call fixture. *)
Definition first_call : Call :=
  let res := generate_lines Fixture.dir_v1 (init "/metrics") Fixture.rng0 in
  mkCall (scan_directory Fixture.dir_v1 (init "/metrics") Fixture.rng0).1 res.1.1 res.1.2.

(** Label names free of the two separators of a label key, label values
    free of the comma. *)
Definition clean_labels (lbls : Dict.t string) : Prop :=
  ∀ k v, (k, v) ∈ lbls →
    PyStr.contains "=" k = false ∧ PyStr.contains "," k = false
    ∧ PyStr.contains "," v = false.

(** ** The layout of the output *)

(** The metric a line belongs to, and the series of a value line. *)
Definition line_name (l : OutLine) : option string :=
  match l with
  | NoMetricsLine => None
  | HelpLine n _ | TypeLine n _ | ValueLine n _ _ _ => Some n
  end.


(** The value line of the label group [kx.1] of the metric [n]. *)
Definition value_line (n : string) (kx : string * Q) : OutLine :=
  ValueLine n kx.1 (key_to_labels kx.1) kx.2.

(** The lines of one metric: its metadata lines, then its value lines. *)
Definition metric_block (item : string * MetricDefinition) (kxs : list (string * Q))
    : list OutLine :=
  metadata_lines item.1 item.2 ++ map (value_line item.1) kxs.

(** * Properties *)

Global Arguments emit_metric : simpl never.
Global Arguments emit_group : simpl never.
Global Arguments seed_sample : simpl never.
Global Arguments seed_metric : simpl never.


(** ** Dictionaries *)

Module DictFacts.
Section facts.
Context {V : Type}.
Implicit Types (d : Dict.t V) (k : string) (v : V).

Lemma get_set_eq d k v : Dict.get k (Dict.set k v d) = Some v.
Proof.
  induction d as [|[k' v'] d IH]; simpl.
  - by rewrite String.eqb_refl.
  - destruct (String.eqb k k') eqn:E; simpl; rewrite E; [done|apply IH].
Qed.

Lemma get_set_ne d k k' v : k ≠ k' → Dict.get k' (Dict.set k v d) = Dict.get k' d.
Proof.
  intros Hne. induction d as [|[k0 v0] d IH]; simpl.
  - destruct (String.eqb k' k) eqn:E; [|done].
    apply String.eqb_eq in E. congruence.
  - destruct (String.eqb k k0) eqn:E; simpl.
    + apply String.eqb_eq in E as ->.
      destruct (String.eqb k' k0) eqn:E'; [|done].
      apply String.eqb_eq in E'. congruence.
    + by rewrite IH.
Qed.

Lemma get_None_keys d k : Dict.get k d = None ↔ k ∉ Dict.keys d.
Proof.
  unfold Dict.keys. induction d as [|[k' v'] d IH]; simpl.
  - split; [intros _; apply not_elem_of_nil|done].
  - rewrite not_elem_of_cons.
    destruct (String.eqb k k') eqn:E.
    + apply String.eqb_eq in E. split; [done|]. intros [? _]. done.
    + apply String.eqb_neq in E. rewrite IH. tauto.
Qed.

Lemma get_Some_elem d k v : Dict.get k d = Some v → (k, v) ∈ d.
Proof.
  induction d as [|[k' v'] d IH]; simpl; [done|].
  destruct (String.eqb k k') eqn:E.
  - apply String.eqb_eq in E as ->. intros [= ->]. left.
  - intros H. right. by apply IH.
Qed.

Lemma elem_get d k v : NoDup (Dict.keys d) → (k, v) ∈ d → Dict.get k d = Some v.
Proof.
  unfold Dict.keys. induction d as [|[k' v'] d IH]; simpl.
  - intros _ H. by apply elem_of_nil in H.
  - intros [Hk Hd]%NoDup_cons [[= -> ->]|Hin]%elem_of_cons.
    + by rewrite String.eqb_refl.
    + destruct (String.eqb k k') eqn:E; [|by apply IH].
      apply String.eqb_eq in E as ->. destruct Hk.
      apply list_elem_of_fmap. by exists (k', v).
Qed.

Lemma keys_set_in d k v : is_Some (Dict.get k d) → Dict.keys (Dict.set k v d) = Dict.keys d.
Proof.
  unfold Dict.keys. induction d as [|[k' v'] d IH]; simpl.
  - by intros [? ?].
  - destruct (String.eqb k k') eqn:E; simpl; [done|].
    intros H. f_equal. by apply IH.
Qed.

Lemma keys_set_new d k v : Dict.get k d = None → Dict.keys (Dict.set k v d) = Dict.keys d ++ [k].
Proof.
  unfold Dict.keys. induction d as [|[k' v'] d IH]; simpl; [done|].
  destruct (String.eqb k k') eqn:E; simpl; [done|].
  intros H. f_equal. by apply IH.
Qed.

Lemma NoDup_set d k v : NoDup (Dict.keys d) → NoDup (Dict.keys (Dict.set k v d)).
Proof.
  intros Hd. destruct (Dict.get k d) eqn:E.
  - by rewrite keys_set_in.
  - rewrite keys_set_new by done. apply NoDup_app. split_and!; [done| |apply NoDup_singleton].
    intros x Hx ->%list_elem_of_singleton. by apply get_None_keys in E.
Qed.

Lemma Forall_set (P : string * V → Prop) d k v :
  (∀ k', P (k', v)) → Forall P d → Forall P (Dict.set k v d).
Proof.
  intros Hv. induction 1 as [|[k' v'] d Hx Hd IH]; simpl.
  - by constructor.
  - destruct (String.eqb k k'); constructor; auto.
Qed.

End facts.
End DictFacts.

(** ** Floats *)

Module FloatFacts.

Lemma ltb_lt x y : Float.ltb x y = true ↔ (x < y)%Q.
Proof.
  unfold Float.ltb. rewrite negb_true_iff, <- not_true_iff_false, Qle_bool_iff.
  split; [apply Qnot_le_lt|apply Qlt_not_le].
Qed.

Lemma ltb_ge x y : Float.ltb x y = false ↔ (y <= x)%Q.
Proof.
  unfold Float.ltb. by rewrite negb_false_iff, Qle_bool_iff.
Qed.

Lemma min2_le_l a b : (Float.min2 a b <= a)%Q.
Proof.
  unfold Float.min2. destruct (Float.ltb b a) eqn:E.
  - apply ltb_lt in E. by apply Qlt_le_weak.
  - apply Qle_refl.
Qed.


Lemma max2_ge_l a b : (a <= Float.max2 a b)%Q.
Proof.
  unfold Float.max2. destruct (Float.ltb a b) eqn:E.
  - apply ltb_lt in E. by apply Qlt_le_weak.
  - apply Qle_refl.
Qed.


Lemma fold_min2_le l x : (fold_left Float.min2 l x <= x)%Q.
Proof.
  revert x. induction l as [|y l IH]; intros x; simpl; [apply Qle_refl|].
  eapply Qle_trans; [apply IH|apply min2_le_l].
Qed.

Lemma fold_max2_ge l x : (x <= fold_left Float.max2 l x)%Q.
Proof.
  revert x. induction l as [|y l IH]; intros x; simpl; [apply Qle_refl|].
  eapply Qle_trans; [apply max2_ge_l|apply IH].
Qed.

Lemma min_le_max l lo hi :
  Float.min_list l = Some lo → Float.max_list l = Some hi → (lo <= hi)%Q.
Proof.
  destruct l as [|x l]; simpl; [done|]. intros [= <-] [= <-].
  eapply Qle_trans; [apply fold_min2_le|apply fold_max2_ge].
Qed.


Lemma uniform_bounds lo hi r :
  rng_ok r → (lo <= hi)%Q →
  (lo <= (uniform lo hi r).1)%Q ∧ ((uniform lo hi r).1 <= hi)%Q.
Proof.
  intros Hr Hle. destruct (Hr (cursor r)) as [H0 H1]. simpl.
  set (u := unit_draw r (cursor r)) in *.
  assert (0 <= (hi - lo) * u)%Q as Hp.
  { apply Qmult_le_0_compat; [|done]. exact (proj1 (Qle_minus_iff _ _) Hle). }
  assert ((hi - lo) * u <= (hi - lo) * 1)%Q as Hq.
  { rewrite !(Qmult_comm (hi - lo)). apply Qmult_le_compat_r.
    - by apply Qlt_le_weak.
    - exact (proj1 (Qle_minus_iff _ _) Hle). }
  split.
  - rewrite <- (Qplus_0_r lo) at 1. by apply Qplus_le_r.
  - apply Qle_trans with (lo + (hi - lo) * 1)%Q; [by apply Qplus_le_r|].
    apply Qle_lteq. right. ring.
Qed.

Lemma uniform_stream lo hi r : unit_draw (uniform lo hi r).2 = unit_draw r.
Proof. done. Qed.

Lemma gauss_stream mu sd r : unit_draw (gauss mu sd r).2 = unit_draw r.
Proof. done. Qed.

End FloatFacts.

(** ** Well-formed catalogs *)

Lemma post_init_wf m : stats_wf m → stats_wf (post_init m).
Proof.
  intros Hm lo hi. unfold post_init. destruct (samples m) as [|s l].
  - apply Hm.
  - apply (FloatFacts.min_le_max (map value (s :: l))).
Qed.

Lemma new_metric_wf n ty h l : stats_wf (new_metric n ty h l).
Proof. apply post_init_wf. by intros lo hi. Qed.

Lemma catalog_wf_nil : catalog_wf [].
Proof. split; [apply NoDup_nil_2|constructor]. Qed.

Lemma catalog_wf_set d k m : catalog_wf d → stats_wf m → catalog_wf (Dict.set k m d).
Proof.
  intros [Hk Hd] Hm. split.
  - by apply DictFacts.NoDup_set.
  - by apply DictFacts.Forall_set.
Qed.

Lemma catalog_wf_get d k m : catalog_wf d → Dict.get k d = Some m → stats_wf m.
Proof.
  intros [_ Hd] Hg. apply DictFacts.get_Some_elem in Hg.
  rewrite Forall_forall in Hd. by apply (Hd (k, m)).
Qed.

Lemma parse_line_wf d l d' :
  catalog_wf d → Parser.parse_line d l = Some d' → catalog_wf d'.
Proof.
  intros Hd. unfold Parser.parse_line.
  repeat match goal with
  | |- context [if ?b then _ else _] => destruct b
  | |- context [match PyStr.split_once ?a ?b with _ => _ end] =>
      destruct (PyStr.split_once a b) as [[? ?]|]
  | |- context [match Dict.get ?a ?b with _ => _ end] =>
      let E := fresh "E" in destruct (Dict.get a b) eqn:E
  | |- context [match Re.match_ ?a ?b with _ => _ end] => destruct (Re.match_ a b)
  | |- context [Float.of_string ?a] => destruct (Float.of_string a); simpl
  end;
  intros [= <-]; try done;
  apply catalog_wf_set; try done; try apply new_metric_wf;
  match goal with
  | E : Dict.get _ _ = Some ?m |- _ =>
      pose proof (catalog_wf_get _ _ _ Hd E) as Hm; intros lo hi; apply Hm
  | _ => idtac
  end.
  all: intros lo hi; apply (new_metric_wf _ "" "" []).
Qed.

Lemma parse_lines_wf ls d d' :
  catalog_wf d → Parser.parse_lines d ls = Some d' → catalog_wf d'.
Proof.
  revert d. induction ls as [|l ls IH]; intros d Hd; simpl.
  - by intros [= <-].
  - destruct (Parser.parse_line d l) as [d1|] eqn:E; simpl; [|done].
    apply IH. by eapply parse_line_wf.
Qed.

Lemma parse_content_wf c d : Parser.parse_content c = Some d → catalog_wf d.
Proof.
  unfold Parser.parse_content.
  destruct (Parser.parse_lines _ _) as [d0|] eqn:E; simpl; [|done].
  intros [= <-]. apply parse_lines_wf in E as [Hk Hd]; [|apply catalog_wf_nil].
  split.
  - unfold Dict.keys in *. rewrite <- list_fmap_compose.
    erewrite list_fmap_ext; [exact Hk|]. by intros i [? ?].
  - apply Forall_fmap. eapply Forall_impl; [exact Hd|].
    intros [? ?] ?. by apply post_init_wf.
Qed.

Lemma parse_wf f d : Parser.parse f = Some d → catalog_wf d.
Proof. destruct f; simpl; [apply parse_content_wf|done]. Qed.

Lemma merge_file_wf acc fm :
  catalog_wf acc → Forall (λ kv, stats_wf kv.2) fm → catalog_wf (merge_file acc fm).
Proof.
  unfold merge_file. intros Hacc Hfm. revert acc Hacc.
  induction Hfm as [|[n m] fm Hm _ IH]; intros acc Hacc; simpl; [done|].
  apply IH. destruct (Dict.get n acc) as [m0|] eqn:E.
  - apply catalog_wf_set; [done|]. intros lo hi. by apply (catalog_wf_get _ _ _ Hacc E).
  - by apply catalog_wf_set.
Qed.

Lemma scan_files_wf files acc d :
  catalog_wf acc → scan_files files acc = Some d → catalog_wf d.
Proof.
  revert acc. induction files as [|[fn f] files IH]; intros acc Hacc; simpl.
  - by intros [= <-].
  - destruct (PyStr.endswith _ _); [|by apply IH].
    destruct (Parser.parse f) as [fm|] eqn:E; simpl; [|done].
    apply IH, merge_file_wf; [done|]. by apply parse_wf in E as [_ ?].
Qed.

Lemma scan_directory_metrics w g r :
  metrics (scan_directory w g r).1 = metrics g
  ∨ ∃ files, listing w = Some files
      ∧ scan_files files [] = Some (metrics (scan_directory w g r).1).
Proof.
  unfold scan_directory. destruct (Float.ltb _ _); [by left|].
  destruct (listing w) as [files|]; simpl; [|by left].
  destruct (scan_files files []) as [d|] eqn:E; [|by left].
  destruct (fold_left _ _ _). right. by exists files.
Qed.

Lemma scan_directory_wf w g r :
  catalog_wf (metrics g) → catalog_wf (metrics (scan_directory w g r).1).
Proof.
  intros Hg. destruct (scan_directory_metrics w g r) as [->|(files & _ & E)]; [done|].
  eapply scan_files_wf; [apply catalog_wf_nil|exact E].
Qed.

(** ** Statistics come from the samples *)

Lemma post_init_stats m :
  samples m ≠ [] → stats (post_init m) = list_stats (samples m).
Proof. unfold post_init, list_stats. by destruct (samples m). Qed.

Lemma post_init_stats_nil m : samples m = [] → stats (post_init m) = stats m.
Proof. unfold post_init. by intros ->. Qed.

Lemma post_init_samples m : samples (post_init m) = samples m.
Proof. unfold post_init. by destruct (samples m) eqn:E. Qed.

Lemma post_init_observed m : stats_observed m → stats_observed (post_init m).
Proof.
  intros Hm. destruct (samples m) as [|s l] eqn:Hs.
  - destruct Hm as [Hm|(l0 & Hne & Hpre & _)].
    + left. by rewrite post_init_stats_nil.
    + rewrite Hs in Hpre. by apply prefix_nil_inv in Hpre.
  - right. exists (samples m). split_and!.
    + by rewrite Hs.
    + by rewrite post_init_samples.
    + apply post_init_stats. by rewrite Hs.
Qed.

Lemma new_metric_observed n ty h : stats_observed (new_metric n ty h []).
Proof. by left. Qed.

Lemma set_samples_observed m l :
  stats_observed m → stats_observed (set_samples (samples m ++ l) m).
Proof.
  intros [Hm|(l0 & Hne & Hpre & Hst)]; [by left|].
  right. exists l0. split_and!; [done| |done]. simpl. by apply prefix_app_r.
Qed.

Lemma catalog_observed_set d k m :
  catalog_observed d → stats_observed m → catalog_observed (Dict.set k m d).
Proof. intros Hd Hm. by apply DictFacts.Forall_set. Qed.

Lemma catalog_observed_get d k m :
  catalog_observed d → Dict.get k d = Some m → stats_observed m.
Proof.
  intros Hd Hg. apply DictFacts.get_Some_elem in Hg.
  unfold catalog_observed in Hd. rewrite Forall_forall in Hd. by apply (Hd (k, m)).
Qed.

Lemma parse_line_observed d l d' :
  catalog_observed d → Parser.parse_line d l = Some d' → catalog_observed d'.
Proof.
  intros Hd. unfold Parser.parse_line.
  repeat match goal with
  | |- context [if ?b then _ else _] => destruct b
  | |- context [match PyStr.split_once ?a ?b with _ => _ end] =>
      destruct (PyStr.split_once a b) as [[? ?]|]
  | |- context [match Dict.get ?a ?b with _ => _ end] =>
      let E := fresh "E" in destruct (Dict.get a b) eqn:E
  | |- context [match Re.match_ ?a ?b with _ => _ end] => destruct (Re.match_ a b)
  | |- context [Float.of_string ?a] => destruct (Float.of_string a); simpl
  end;
  intros [= <-]; try done;
  apply catalog_observed_set; try done; try apply new_metric_observed;
  try (by left);
  try (apply set_samples_observed; try apply new_metric_observed);
  try match goal with
  | E : Dict.get _ _ = Some ?m |- _ =>
      pose proof (catalog_observed_get _ _ _ Hd E) as Hm; exact Hm
  end.
Qed.

Lemma parse_lines_observed ls d d' :
  catalog_observed d → Parser.parse_lines d ls = Some d' → catalog_observed d'.
Proof.
  revert d. induction ls as [|l ls IH]; intros d Hd; simpl.
  - by intros [= <-].
  - destruct (Parser.parse_line d l) as [d1|] eqn:E; simpl; [|done].
    apply IH. by eapply parse_line_observed.
Qed.

Lemma parse_observed f d : Parser.parse f = Some d → catalog_observed d.
Proof.
  destruct f as [c|]; simpl; [|done]. unfold Parser.parse_content.
  destruct (Parser.parse_lines _ _) as [d0|] eqn:E; simpl; [|done].
  intros [= <-]. apply parse_lines_observed in E; [|constructor].
  apply Forall_fmap. eapply Forall_impl; [exact E|].
  intros [? ?] ?. by apply post_init_observed.
Qed.

Lemma merge_file_observed acc fm :
  catalog_observed acc → catalog_observed fm → catalog_observed (merge_file acc fm).
Proof.
  unfold merge_file. intros Hacc Hfm. revert acc Hacc.
  induction Hfm as [|[n m] fm Hm _ IH]; intros acc Hacc; simpl; [done|].
  apply IH. destruct (Dict.get n acc) as [m0|] eqn:E.
  - apply catalog_observed_set; [done|]. apply set_samples_observed.
    by eapply catalog_observed_get.
  - by apply catalog_observed_set.
Qed.

Lemma scan_files_observed files acc d :
  catalog_observed acc → scan_files files acc = Some d → catalog_observed d.
Proof.
  revert acc. induction files as [|[fn f] files IH]; intros acc Hacc; simpl.
  - by intros [= <-].
  - destruct (PyStr.endswith _ _); [|by apply IH].
    destruct (Parser.parse f) as [fm|] eqn:E; simpl; [|done].
    apply IH, merge_file_observed; [done|]. by eapply parse_observed.
Qed.

Lemma scan_directory_observed w g r :
  catalog_observed (metrics g) → catalog_observed (metrics (scan_directory w g r).1).
Proof.
  intros Hg. destruct (scan_directory_metrics w g r) as [->|(files & _ & E)]; [done|].
  eapply scan_files_observed; [|exact E]. constructor.
Qed.

(** ** One draw *)

Lemma counter_increment_stream m r : unit_draw (counter_increment m r).2 = unit_draw r.
Proof. unfold counter_increment. by destruct (std_positive m). Qed.

Lemma gauge_value_stream m lo hi r : unit_draw (gauge_value m lo hi r).2 = unit_draw r.
Proof. unfold gauge_value. by destruct (std_positive m), (mean_value m). Qed.

Lemma counter_increment_nonneg m r : rng_ok r → (0 <= (counter_increment m r).1)%Q.
Proof.
  intros Hr. unfold counter_increment. destruct (std_positive m).
  - apply (Qabs_nonneg (gauss 0 q r).1).
  - eapply Qle_trans; [|apply (FloatFacts.uniform_bounds (1 # 10) 1 r Hr)]; done.
Qed.


(** ** One label group *)

Lemma stored_insert_eq cs n entries key v :
  stored (<[n := <[key := v]> entries]> cs) n key = Some v.
Proof. unfold stored. rewrite lookup_insert_eq. simpl. by rewrite lookup_insert_eq. Qed.

Lemma stored_insert_ne cs n entries key v n' key' :
  cs !! n = Some entries → (n', key') ≠ (n, key) →
  stored (<[n := <[key := v]> entries]> cs) n' key' = stored cs n' key'.
Proof.
  intros Hn Hne. unfold stored. destruct (decide (n' = n)) as [->|Hn'].
  - rewrite lookup_insert_eq, Hn. simpl. rewrite lookup_insert_ne; [done|congruence].
  - by rewrite lookup_insert_ne.
Qed.

Lemma emit_group_step n metric st grp :
  group_step n metric st grp.1 (emit_group n metric st grp).
Proof.
  unfold emit_group. destruct (is_counter metric) eqn:Hc.
  - destruct (st_counters st !! n) as [entries|] eqn:Hn.
    + destruct (entries !! grp.1) as [cur|] eqn:Hk.
      * pose proof (counter_increment_stream metric (st_rng st)) as Hs.
        destruct (counter_increment metric (st_rng st)) as [inc r'] eqn:Hi.
        apply step_counter with cur; simpl; rewrite ?Hi; try done.
        -- unfold stored. by rewrite Hn.
        -- apply stored_insert_eq.
        -- intros n' key' Hne. by apply stored_insert_ne.
      * apply step_silent; [done|]. rewrite Hc. unfold stored. by rewrite Hn.
    + apply step_silent; [done|]. rewrite Hc. unfold stored. by rewrite Hn.
  - destruct (min_value metric) as [lo|] eqn:Hlo; [|apply step_silent; rewrite ?Hc; auto].
    destruct (max_value metric) as [hi|] eqn:Hhi; [|apply step_silent; rewrite ?Hc; auto].
    pose proof (gauge_value_stream metric lo hi (st_rng st)) as Hs.
    destruct (gauge_value metric lo hi (st_rng st)) as [v r'] eqn:Hv.
    apply step_gauge with lo hi; simpl; rewrite ?Hv; done.
Qed.

(** ** The loops of [generate_metrics] *)

Lemma value_line_ok_frame n metric cs0 cs cs' cs1 u key x :
  stored cs0 n key = stored cs n key →
  stored cs1 n key = stored cs' n key →
  value_line_ok n metric cs cs' u key x → value_line_ok n metric cs0 cs1 u key x.
Proof.
  unfold value_line_ok. intros H0 H1. destruct (is_counter metric); [|done].
  intros (prev & r0 & ? & ? & ? & ?). exists prev, r0. by rewrite H0, H1.
Qed.

Lemma emit_groups_spec n metric groups st :
  NoDup groups.*1 →
  let st' := fold_left (emit_group n metric) groups st in
  unit_draw (st_rng st') = unit_draw (st_rng st)
  ∧ (∀ n' key', n' ≠ n ∨ key' ∉ groups.*1 →
       stored (st_counters st') n' key' = stored (st_counters st) n' key')
  ∧ ∃ ls, st_out st' = st_out st ++ ls
      ∧ ∀ l, l ∈ ls → ∃ key x,
          l = ValueLine n key (key_to_labels key) x ∧ key ∈ groups.*1
          ∧ value_line_ok n metric (st_counters st) (st_counters st')
              (unit_draw (st_rng st)) key x.
Proof.
  revert st. induction groups as [|grp groups IH]; intros st Hnd; simpl.
  { split_and!; [done..|]. exists []. split; [by rewrite app_nil_r|].
    intros l Hl. by apply elem_of_nil in Hl. }
  apply NoDup_cons in Hnd as [Hfresh Hnd].
  set (st1 := emit_group n metric st grp).
  destruct (IH st1 Hnd) as (Hs & Hframe & ls & Hout & Hls). clear IH.
  pose proof (emit_group_step n metric st grp) as Hstep. fold st1 in Hstep.
  assert (unit_draw (st_rng st1) = unit_draw (st_rng st)) as Hs1.
  { destruct Hstep as [-> _| |]; done. }
  assert (∀ n' key', (n', key') ≠ (n, grp.1) →
    stored (st_counters st1) n' key' = stored (st_counters st) n' key') as Hframe1.
  { destruct Hstep as [-> _|prev _ _ inc _ _ Hf _|lo hi _ _ _ _ -> _]; auto. }
  split_and!.
  - by rewrite Hs.
  - intros n' key' Hne. rewrite Hframe.
    + apply Hframe1. intros [= -> ->]. destruct Hne as [?|Hne]; [done|].
      apply Hne. left.
    + destruct Hne as [?|Hne]; [by left|]. right. intros ?. apply Hne. by right.
  - assert (∀ key x, key ∈ groups.*1 →
      value_line_ok n metric (st_counters st1)
        (st_counters (fold_left (emit_group n metric) groups st1))
        (unit_draw (st_rng st1)) key x →
      value_line_ok n metric (st_counters st)
        (st_counters (fold_left (emit_group n metric) groups st1))
        (unit_draw (st_rng st)) key x) as Hlift.
    { intros key x Hin. rewrite Hs1. apply value_line_ok_frame; [|done].
      symmetry. apply Hframe1. intros [= ->]. done. }
    destruct Hstep as [-> _|prev Hc Hprev inc Ho Hnew _ _|lo hi Hc Hlo Hhi Ho _ _].
    + exists ls. split; [done|]. intros l Hl.
      destruct (Hls l Hl) as (key & x & -> & Hin & Hok).
      exists key, x. split_and!; [done|by right|done].
    + exists (ValueLine n grp.1 (key_to_labels grp.1) (prev + inc)%Q :: ls).
      split; [by rewrite Hout, Ho, <- app_assoc|].
      intros l [->|Hl]%elem_of_cons.
      * exists grp.1, (prev + inc)%Q. split_and!; [done|by left|].
        unfold value_line_ok. rewrite Hc. exists prev, (st_rng st).
        split_and!; [done..|]. rewrite Hframe; [done|by right].
      * destruct (Hls l Hl) as (key & x & -> & Hin & Hok).
        exists key, x. split_and!; [done|by right|by apply Hlift].
    + exists (ValueLine n grp.1 (key_to_labels grp.1)
                (gauge_value metric lo hi (st_rng st)).1 :: ls).
      split; [by rewrite Hout, Ho, <- app_assoc|].
      intros l [->|Hl]%elem_of_cons.
      * eexists grp.1, _. split_and!; [done|by left|].
        unfold value_line_ok. rewrite Hc. by exists lo, hi, (st_rng st).
      * destruct (Hls l Hl) as (key & x & -> & Hin & Hok).
        exists key, x. split_and!; [done|by right|by apply Hlift].
Qed.

Lemma group_samples_NoDup l : NoDup (Dict.keys (group_samples l)).
Proof.
  unfold group_samples.
  assert (NoDup (Dict.keys (@nil (string * list Q)))) as Hnil by apply NoDup_nil_2.
  revert Hnil. generalize (@nil (string * list Q)).
  induction l as [|s l IH]; intros acc Hacc; simpl; [done|].
  apply IH. by apply DictFacts.NoDup_set.
Qed.

Lemma emit_metric_spec n metric st :
  let st' := emit_metric st (n, metric) in
  unit_draw (st_rng st') = unit_draw (st_rng st)
  ∧ (∀ n' key', n' ≠ n →
       stored (st_counters st') n' key' = stored (st_counters st) n' key')
  ∧ ∃ ls, st_out st' = st_out st ++ metadata_lines n metric ++ ls
      ∧ ∀ l, l ∈ ls → ∃ key x,
          l = ValueLine n key (key_to_labels key) x
          ∧ key ∈ Dict.keys (group_samples (samples metric))
          ∧ value_line_ok n metric (st_counters st) (st_counters st')
              (unit_draw (st_rng st)) key x.
Proof.
  unfold emit_metric.
  set (st1 := mkGenState _ _ _).
  destruct (emit_groups_spec n metric (group_samples (samples metric)) st1
              (group_samples_NoDup _)) as (Hs & Hframe & ls & Hout & Hls).
  split_and!; [done|by intros; apply Hframe; left|].
  exists ls. split; [|done]. rewrite Hout. simpl. by rewrite <- app_assoc.
Qed.

Lemma emit_metrics_spec items st :
  NoDup items.*1 →
  let st' := fold_left emit_metric items st in
  unit_draw (st_rng st') = unit_draw (st_rng st)
  ∧ (∀ n' key', n' ∉ items.*1 →
       stored (st_counters st') n' key' = stored (st_counters st) n' key')
  ∧ ∃ ls, st_out st' = st_out st ++ ls
      ∧ (∀ l, l ∈ ls → ∃ n metric, (n, metric) ∈ items
           ∧ line_of n metric (st_counters st) (st_counters st')
               (unit_draw (st_rng st)) l)
      ∧ (∀ n metric l, (n, metric) ∈ items → l ∈ metadata_lines n metric → l ∈ ls).
Proof.
  revert st. induction items as [|[n metric] items IH]; intros st Hnd; simpl.
  { split_and!; [done..|]. exists []. split_and!; [by rewrite app_nil_r|..].
    - intros l Hl. by apply elem_of_nil in Hl.
    - intros ??? Hin. by apply elem_of_nil in Hin. }
  apply NoDup_cons in Hnd as [Hfresh Hnd].
  destruct (emit_metric_spec n metric st) as (Hs1 & Hframe1 & ls1 & Hout1 & Hls1).
  set (st1 := emit_metric st (n, metric)) in *.
  destruct (IH st1 Hnd) as (Hs & Hframe & ls & Hout & Hls & Hmeta). clear IH.
  set (st' := fold_left emit_metric items st1) in *.
  split_and!.
  - by rewrite Hs.
  - intros n' key' [Hne Hnin]%not_elem_of_cons.
    rewrite Hframe by done. by apply Hframe1.
  - exists (metadata_lines n metric ++ ls1 ++ ls).
    split_and!.
    + by rewrite Hout, Hout1, <- !app_assoc.
    + intros l [Hl|[Hl|Hl]%elem_of_app]%elem_of_app.
      * exists n, metric. split; [left|by left].
      * destruct (Hls1 l Hl) as (key & x & -> & Hin & Hok).
        exists n, metric. split; [left|]. right. exists key, x.
        split_and!; [done..|]. eapply value_line_ok_frame; [done| |exact Hok].
        by apply Hframe.
      * destruct (Hls l Hl) as (n' & metric' & Hin & Hl').
        exists n', metric'. split; [by right|].
        assert (n' ≠ n) as Hne.
        { intros ->. apply Hfresh. apply list_elem_of_fmap. by exists (n, metric'). }
        destruct Hl' as [?|(key & x & -> & Hk & Hok)]; [by left|]. right.
        exists key, x. split_and!; [done..|]. rewrite <- Hs1.
        eapply value_line_ok_frame; [|done|exact Hok].
        symmetry. by apply Hframe1.
    + intros n' metric' l [[= -> ->]|Hin]%elem_of_cons Hl.
      * apply elem_of_app. by left.
      * apply elem_of_app. right. apply elem_of_app. right. by eapply Hmeta.
Qed.

Lemma store_le_refl cs : store_le cs cs.
Proof. intros n key v Hv. exists v. split; [done|apply Qle_refl]. Qed.

Lemma store_le_trans cs1 cs2 cs3 : store_le cs1 cs2 → store_le cs2 cs3 → store_le cs1 cs3.
Proof.
  intros H12 H23 n key v Hv. destruct (H12 _ _ _ Hv) as (v2 & Hv2 & Hle2).
  destruct (H23 _ _ _ Hv2) as (v3 & Hv3 & Hle3). exists v3. split; [done|].
  by eapply Qle_trans.
Qed.

Lemma emit_group_store_le n metric st grp :
  rng_ok (st_rng st) →
  store_le (st_counters st) (st_counters (emit_group n metric st grp))
  ∧ rng_ok (st_rng (emit_group n metric st grp)).
Proof.
  intros Hr.
  destruct (emit_group_step n metric st grp) as [-> _|prev _ Hprev inc _ Hnew Hf Hs|lo hi _ _ _ _ -> Hs].
  - split; [apply store_le_refl|done].
  - split; [|unfold rng_ok; by rewrite Hs].
    intros n' key' v Hv. destruct (decide ((n', key') = (n, grp.1))) as [[= -> ->]|Hne].
    + exists (prev + inc)%Q. split; [done|]. rewrite Hprev in Hv. injection Hv as <-.
      rewrite <- (Qplus_0_r prev) at 1. apply Qplus_le_r.
      by apply counter_increment_nonneg.
    + rewrite Hf by done. exists v. split; [done|apply Qle_refl].
  - split; [apply store_le_refl|unfold rng_ok; by rewrite Hs].
Qed.

Lemma emit_metric_store_le st item :
  rng_ok (st_rng st) →
  store_le (st_counters st) (st_counters (emit_metric st item))
  ∧ rng_ok (st_rng (emit_metric st item)).
Proof.
  destruct item as [n metric]. unfold emit_metric.
  set (st1 := mkGenState _ _ _).
  change (st_counters st) with (st_counters st1).
  change (st_rng st) with (st_rng st1).
  generalize st1. clear st st1.
  induction (group_samples (samples metric)) as [|grp groups IH]; intros st Hr; simpl.
  - split; [apply store_le_refl|done].
  - destruct (emit_group_store_le n metric st grp Hr) as [Hle Hr'].
    destruct (IH _ Hr') as [Hle' Hr'']. split; [|done]. by eapply store_le_trans.
Qed.

Lemma emit_metrics_store_le items st :
  rng_ok (st_rng st) →
  store_le (st_counters st) (st_counters (fold_left emit_metric items st))
  ∧ rng_ok (st_rng (fold_left emit_metric items st)).
Proof.
  revert st. induction items as [|item items IH]; intros st Hr; simpl.
  - split; [apply store_le_refl|done].
  - destruct (emit_metric_store_le st item Hr) as [Hle Hr'].
    destruct (IH _ Hr') as [Hle' Hr'']. split; [|done]. by eapply store_le_trans.
Qed.

(** ** Seeding the counter store *)

Lemma seed_sample_spec metric entries r sample :
  let st' := seed_sample metric (entries, r) sample in
  unit_draw st'.2 = unit_draw r
  ∧ (∀ k v, entries !! k = Some v → st'.1 !! k = Some v)
  ∧ (∀ lo hi, min_value metric = Some lo → max_value metric = Some hi →
       is_Some (st'.1 !! labels_to_key (labels sample))
       ∧ (rng_ok r → (lo <= hi)%Q →
          ∀ k v, st'.1 !! k = Some v →
            entries !! k = Some v ∨ ((lo <= v)%Q ∧ (v <= hi)%Q))).
Proof.
  unfold seed_sample.
  destruct (entries !! labels_to_key (labels sample)) as [v0|] eqn:E; simpl.
  { split_and!; [done..|]. intros lo hi _ _. split; [by rewrite E|]. by left. }
  destruct (min_value metric) as [lo|]; [|by split_and!].
  destruct (max_value metric) as [hi|]; [|by split_and!].
  simpl. split_and!; [done|..].
  - intros k v Hk. rewrite lookup_insert_ne; [done|]. intros <-. congruence.
  - intros lo' hi' [= <-] [= <-]. split; [by rewrite lookup_insert_eq|].
    intros Hr Hle k v. destruct (decide (labels_to_key (labels sample) = k)) as [<-|Hne].
    + rewrite lookup_insert_eq. intros [= <-]. right.
      apply (FloatFacts.uniform_bounds lo hi r Hr Hle).
    + rewrite lookup_insert_ne by done. by left.
Qed.

Lemma seed_samples_spec metric l entries r :
  let st' := fold_left (seed_sample metric) l (entries, r) in
  unit_draw st'.2 = unit_draw r
  ∧ (∀ k v, entries !! k = Some v → st'.1 !! k = Some v)
  ∧ (∀ lo hi, min_value metric = Some lo → max_value metric = Some hi →
       (∀ s, s ∈ l → is_Some (st'.1 !! labels_to_key (labels s)))
       ∧ (rng_ok r → (lo <= hi)%Q →
          ∀ k v, st'.1 !! k = Some v →
            entries !! k = Some v ∨ ((lo <= v)%Q ∧ (v <= hi)%Q))).
Proof.
  revert entries r. induction l as [|s l IH]; intros entries r; simpl.
  { split_and!; [done..|]. intros lo hi _ _. split; [|by left].
    intros s Hs. by apply elem_of_nil in Hs. }
  destruct (seed_sample_spec metric entries r s) as (Hs1 & Hk1 & Hr1).
  destruct (seed_sample metric (entries, r) s) as [entries1 r1]. simpl in *.
  destruct (IH entries1 r1) as (Hs & Hk & Hr). clear IH.
  split_and!; [by rewrite Hs|by auto|].
  intros lo hi Hlo Hhi. destruct (Hr1 lo hi Hlo Hhi) as [Hin1 Hb1].
  destruct (Hr lo hi Hlo Hhi) as [Hin Hb]. split.
  - intros s' [->|Hs']%elem_of_cons; [|by apply Hin].
    destruct Hin1 as [v Hv]. exists v. by apply Hk.
  - intros Hok Hle k v Hv.
    assert (rng_ok r1) as Hok1 by (unfold rng_ok; by rewrite Hs1).
    destruct (Hb Hok1 Hle k v Hv) as [Hv1|?]; [|by right]. by apply Hb1.
Qed.

Lemma seed_metric_spec cs r n metric :
  let st' := seed_metric (cs, r) (n, metric) in
  unit_draw st'.2 = unit_draw r
  ∧ (∀ n' entries, cs !! n' = Some entries → st'.1 !! n' = Some entries)
  ∧ (∀ n', n' ≠ n → st'.1 !! n' = cs !! n')
  ∧ (is_counter metric = false → st'.1 = cs)
  ∧ (is_counter metric = true → cs !! n = None →
       ∃ r0, unit_draw r0 = unit_draw r
         ∧ st'.1 !! n = Some (fold_left (seed_sample metric) (samples metric) (∅, r0)).1).
Proof.
  unfold seed_metric. destruct (is_counter metric) eqn:Hc; [|by split_and!].
  destruct (cs !! n) as [entries|] eqn:Hn; [by split_and!|].
  destruct (seed_samples_spec metric (samples metric) ∅ r) as (Hs & _ & _).
  destruct (fold_left _ _ _) as [entries r'] eqn:Hf. simpl in *.
  split_and!; [done| | |done|].
  - intros n' e He. rewrite lookup_insert_ne; [done|]. intros <-. congruence.
  - intros n' Hne. by rewrite lookup_insert_ne.
  - intros _ _. exists r. split; [done|]. by rewrite lookup_insert_eq, Hf.
Qed.

Lemma seed_metrics_spec items cs r :
  let st' := fold_left seed_metric items (cs, r) in
  unit_draw st'.2 = unit_draw r
  ∧ (∀ n entries, cs !! n = Some entries → st'.1 !! n = Some entries)
  ∧ (∀ n, n ∉ items.*1 → st'.1 !! n = cs !! n)
  ∧ (NoDup items.*1 → ∀ n metric, (n, metric) ∈ items →
       is_counter metric = true → cs !! n = None →
       ∃ r0, unit_draw r0 = unit_draw r
         ∧ st'.1 !! n = Some (fold_left (seed_sample metric) (samples metric) (∅, r0)).1).
Proof.
  revert cs r. induction items as [|[n0 m0] items IH]; intros cs r; simpl.
  { split_and!; [done..|]. intros _ n metric Hin. by apply elem_of_nil in Hin. }
  destruct (seed_metric_spec cs r n0 m0) as (Hs1 & Hk1 & Hne1 & _ & Hseed1).
  destruct (seed_metric (cs, r) (n0, m0)) as [cs1 r1]. simpl in *.
  destruct (IH cs1 r1) as (Hs & Hk & Hnin & Hseed). clear IH.
  split_and!; [by rewrite Hs|by auto| |].
  - intros n [Hne Hn]%not_elem_of_cons. rewrite Hnin by done. by apply Hne1.
  - intros [Hfresh Hnd]%NoDup_cons n metric [[= -> ->]|Hin]%elem_of_cons Hc Hn.
    + destruct (Hseed1 Hc Hn) as (r0 & Hr0 & Hv). exists r0. split; [done|].
      by apply Hk.
    + assert (n ≠ n0) as Hne.
      { intros ->. apply Hfresh. apply list_elem_of_fmap. by exists (n0, metric). }
      destruct (Hseed Hnd n metric Hin Hc) as (r0 & Hr0 & Hv).
      { by rewrite Hne1. }
      exists r0. split; [by rewrite Hr0|done].
Qed.

(** ** The outcomes of [scan_directory] *)

Lemma scan_directory_throttled w g r :
  scan_outcome w g = Throttled → scan_directory w g r = (g, r).
Proof.
  unfold scan_outcome, scan_directory. destruct (Float.ltb _ _); [done|].
  by destruct (listing w ≫= _).
Qed.

Lemma scan_directory_abandoned w g r :
  scan_outcome w g = Abandoned →
  scan_directory w g r =
    (mkGenerator (metrics_dir g) (metrics g) (counter_state g)
       (scan_interval g) (now w), r).
Proof.
  unfold scan_outcome, scan_directory. destruct (Float.ltb _ _); [done|].
  by destruct (listing w ≫= _).
Qed.

Lemma scan_directory_rebuilt w g r cat :
  scan_outcome w g = Rebuilt cat →
  scan_directory w g r =
    (mkGenerator (metrics_dir g) cat
       (fold_left seed_metric cat (counter_state g, r)).1
       (scan_interval g) (now w),
     (fold_left seed_metric cat (counter_state g, r)).2).
Proof.
  unfold scan_outcome, scan_directory. destruct (Float.ltb _ _); [done|].
  destruct (listing w ≫= _); [|done]. intros [= ->].
  by destruct (fold_left _ _ _).
Qed.


(** Whatever the outcome, the names already in the store keep their
    entries, and the oracle keeps its streams. *)
Lemma scan_directory_keeps w g r :
  (∀ n entries, counter_state g !! n = Some entries →
     counter_state (scan_directory w g r).1 !! n = Some entries)
  ∧ unit_draw (scan_directory w g r).2 = unit_draw r.
Proof.
  destruct (scan_outcome w g) as [| |cat] eqn:E.
  - by rewrite scan_directory_throttled.
  - by rewrite scan_directory_abandoned.
  - rewrite (scan_directory_rebuilt _ _ _ _ E). simpl.
    destruct (seed_metrics_spec cat (counter_state g) r) as (Hs & Hk & _). done.
Qed.


(** ** Refreshing the catalog and the counter store *)




(** ** A file that cannot be read *)

Lemma scan_files_unreadable files fn acc :
  (fn, None) ∈ files → PyStr.endswith ".prom" fn = true →
  scan_files files acc = None.
Proof.
  intros Hin Hsuffix. revert acc.
  induction files as [|[fn0 f0] files IH]; intros acc; [by apply elem_of_nil in Hin|].
  simpl. apply elem_of_cons in Hin as [[= <- <-]|Hin].
  - by rewrite Hsuffix.
  - destruct (PyStr.endswith ".prom" fn0); [|by apply IH].
    destruct (Parser.parse f0); simpl; [by apply IH|done].
Qed.

(** C5, as amended.  When a refresh is due and opening or reading one of
    the selected files raises, the whole refresh is abandoned: the
    catalog and the counter store stay as they were, no draw is consumed,
    and only the time of the last scan moves. *)
Theorem unreadable_file_abandons_refresh w g r files fn :
  Float.ltb (now w - last_scan_time g) (scan_interval g) = false →
  listing w = Some files →
  (fn, None) ∈ files → PyStr.endswith ".prom" fn = true →
  scan_directory w g r =
    (mkGenerator (metrics_dir g) (metrics g) (counter_state g)
       (scan_interval g) (now w), r).
Proof.
  intros Hdue Hls Hin Hsuffix. apply scan_directory_abandoned.
  unfold scan_outcome. rewrite Hdue, Hls. simpl.
  by rewrite (scan_files_unreadable _ _ _ Hin Hsuffix).
Qed.

Lemma unreadable_file_abandons_refresh_witness :
  let w := mkWorld 100 (Some [("good.prom", Some "up 1"); ("bad.prom", None)]) in
  scan_directory w (init "/metrics") Fixture.rng0 =
    (mkGenerator "/metrics" [] ∅ 60 100, Fixture.rng0).
Proof.
  intros w.
  refine (unreadable_file_abandons_refresh w (init "/metrics") Fixture.rng0
            _ "bad.prom" eq_refl eq_refl _ eq_refl).
  right. left.
Defined.

(** C5, as stated, fails: [good.prom] parses to a catalog with the metric
    [up], yet after the refresh in which [bad.prom] could not be read the
    installed catalog is still the empty one. *)
Lemma unreadable_file_drops_the_other_files :
  let w := mkWorld 100 (Some [("good.prom", Some "up 1"); ("bad.prom", None)]) in
  let g' := (scan_directory w (init "/metrics") Fixture.rng0).1 in
  is_Some (Parser.parse (Some "up 1") ≫= Dict.get "up")
  ∧ Dict.get "up" (metrics g') = None
  ∧ metrics g' = [].
Proof. split_and!; [by eexists|done..]. Qed.

(** ** Merging the files of one scan *)

Lemma scan_files_fold files acc :
  scan_files files acc = (λ ps, fold_left merge_file ps acc) <$> parsed_files files.
Proof.
  revert acc. induction files as [|[fn f] files IH]; intros acc; simpl; [done|].
  destruct (PyStr.endswith ".prom" fn); [|apply IH].
  destruct (Parser.parse f) as [fm|]; simpl; [|done].
  rewrite IH. by destruct (parsed_files files).
Qed.

Lemma parsed_files_wf files ps :
  parsed_files files = Some ps → Forall catalog_wf ps.
Proof.
  revert ps. induction files as [|[fn f] files IH]; intros ps; simpl.
  - intros [= <-]. constructor.
  - destruct (PyStr.endswith ".prom" fn); [|apply IH].
    destruct (Parser.parse f) as [fm|] eqn:E; simpl; [|done].
    destruct (parsed_files files) as [ps'|]; simpl; [|done].
    intros [= <-]. constructor; [by eapply parse_wf|by apply IH].
Qed.

Lemma set_samples_own m : set_samples (samples m) m = m.
Proof. by destruct m. Qed.

Lemma set_samples_twice l l' m : set_samples l (set_samples l' m) = set_samples l m.
Proof. done. Qed.

Lemma merge_file_get acc fm n :
  NoDup (Dict.keys fm) →
  Dict.get n (merge_file acc fm) =
    match Dict.get n acc with
    | Some m0 => Some (set_samples (samples m0 ++ file_samples n fm) m0)
    | None => Dict.get n fm
    end.
Proof.
  unfold merge_file, file_samples. revert acc.
  induction fm as [|[k mk] fm IH]; intros acc Hnd.
  { simpl. destruct (Dict.get n acc) as [m0|]; [|done].
    by rewrite app_nil_r, set_samples_own. }
  change (Dict.keys ((k, mk) :: fm)) with (k :: Dict.keys fm) in Hnd.
  apply NoDup_cons in Hnd as [Hfresh Hnd].
  cbn [fold_left]. rewrite IH by done. clear IH. cbn [Dict.get].
  destruct (String.eqb n k) eqn:E.
  - apply String.eqb_eq in E as ->.
    apply DictFacts.get_None_keys in Hfresh. rewrite Hfresh.
    destruct (Dict.get k acc) as [m0|] eqn:Hacc; rewrite DictFacts.get_set_eq.
    + simpl. by rewrite app_nil_r.
    + by rewrite app_nil_r, set_samples_own.
  - apply String.eqb_neq in E.
    assert (∀ v, Dict.get n (Dict.set k v acc) = Dict.get n acc) as Hset.
    { intros v. by apply DictFacts.get_set_ne. }
    by destruct (Dict.get k acc); rewrite Hset.
Qed.

Lemma merge_files_get ps acc n :
  Forall catalog_wf ps →
  Dict.get n (fold_left merge_file ps acc) =
    match Dict.get n acc with
    | Some m0 =>
        Some (set_samples (samples m0 ++ concat (map (file_samples n) ps)) m0)
    | None =>
        (λ m0, set_samples (concat (map (file_samples n) ps)) m0) <$> first_def n ps
    end.
Proof.
  intros Hps. revert acc. induction Hps as [|fm ps [Hnd _] _ IH]; intros acc.
  { simpl. destruct (Dict.get n acc) as [m0|]; [|done].
    by rewrite app_nil_r, set_samples_own. }
  cbn [fold_left map concat first_def]. rewrite IH, merge_file_get by done.
  destruct (Dict.get n acc) as [m0|].
  - simpl. by rewrite app_assoc.
  - unfold file_samples. destruct (Dict.get n fm) as [m|]; simpl; [|done].
    by destruct m.
Qed.

(** C8, as amended.  In the catalog built by one scan, the definition
    stored under a name is the one of the first file, in processing order,
    that mentions the name (so its help text, declared type and statistics
    are that file's), with the samples of all files concatenated in
    processing order. *)
Theorem merge_keeps_first_metadata files cat n :
  scan_files files [] = Some cat →
  ∃ ps, parsed_files files = Some ps
    ∧ Dict.get n cat =
        (λ m0, set_samples (concat (map (file_samples n) ps)) m0) <$> first_def n ps
    ∧ (∀ m, Dict.get n cat = Some m →
         ∃ m0, first_def n ps = Some m0
           ∧ help_text m = help_text m0 ∧ metric_type m = metric_type m0
           ∧ samples m = concat (map (file_samples n) ps)).
Proof.
  rewrite scan_files_fold.
  destruct (parsed_files files) as [ps|] eqn:Hps; simpl; [|done].
  intros [= <-]. exists ps. split; [done|].
  rewrite merge_files_get by (by eapply parsed_files_wf). simpl.
  split; [done|]. intros m. destruct (first_def n ps) as [m0|]; simpl; [|done].
  intros [= <-]. by exists m0.
Qed.

Lemma merge_keeps_first_metadata_witness :
  ∃ m, Dict.get "m" (default [] (scan_files FixtureTwoFiles.two_files [])) = Some m
    ∧ help_text m = "first help" ∧ metric_type m = "gauge".
Proof.
  destruct (merge_keeps_first_metadata FixtureTwoFiles.two_files
              (default [] (scan_files FixtureTwoFiles.two_files [])) "m" eq_refl)
    as (ps & Hps & Hget & _).
  injection Hps as <-. eexists. split; [exact Hget|]. by vm_compute.
Defined.

(** C8, as stated, fails: the last [# HELP] and [# TYPE] lines processed
    for [m] are those of [second.prom], yet the merged definition carries
    the help text and the type of [first.prom]; the samples of both files
    are there. *)
Lemma merged_metadata_is_not_last_write :
  (∃ m2, Parser.parse (Some FixtureTwoFiles.second_file) ≫= Dict.get "m" = Some m2
     ∧ help_text m2 = "second help" ∧ metric_type m2 = "counter")
  ∧ ∃ m, scan_files FixtureTwoFiles.two_files [] ≫= Dict.get "m" = Some m
     ∧ help_text m = "first help" ∧ metric_type m = "gauge"
     ∧ help_text m ≠ "second help" ∧ metric_type m ≠ "counter"
     ∧ map value (samples m) = [1; 5]%Q.
Proof.
  split.
  - eexists. split; [vm_compute; reflexivity|done].
  - eexists. split; [vm_compute; reflexivity|]. by split_and!.
Qed.

Lemma post_init_idem m : post_init (post_init m) = post_init m.
Proof. unfold post_init. by destruct (samples m). Qed.

(** What one file yields is up to date: re-running [__post_init__] on a
    definition returned by [parse()] changes nothing, so its statistics
    are those of its whole sample list. *)
Lemma parsed_statistics_current c d n m :
  Parser.parse_content c = Some d → (n, m) ∈ d → post_init m = m.
Proof.
  unfold Parser.parse_content.
  destruct (Parser.parse_lines _ _) as [d0|]; simpl; [|done].
  intros [= <-] ([n0 m0] & [= -> ->] & _)%list_elem_of_fmap.
  apply post_init_idem.
Qed.

(** C4 at the failing input, the same two files.  The statistics of a
    catalog entry are not those of its merged sample collection: the
    merged definition holds the samples 1 and 5, but its statistics are
    still those [first.prom] alone gave (minimum, maximum and mean 1,
    deviation 0), not those of the merged collection (maximum 5, mean 3, a
    positive deviation).  The merge extends the sample list and does not
    run [__post_init__] again. *)
Lemma merged_statistics_ignore_later_files :
  ∃ m, scan_files FixtureTwoFiles.two_files [] ≫= Dict.get "m" = Some m
    ∧ map value (samples m) = [1; 5]%Q
    ∧ min_value m = Some 1%Q ∧ max_value m = Some 1%Q
    ∧ mean_value m = Some 1%Q ∧ std_dev m = Some 0%Q
    ∧ Float.max_list (map value (samples m)) = Some 5%Q
    ∧ (Float.mean (map value (samples m)) == 3)%Q
    ∧ (0 < Float.stdev (map value (samples m)))%Q.
Proof.
  eexists. split; [vm_compute; reflexivity|]. by split_and!.
Qed.

(** ** One call of [generate_metrics] *)

Lemma sorted_items_elem (cat : Dict.t MetricDefinition) n metric :
  NoDup (Dict.keys cat) →
  (n, metric) ∈ merge_sort name_le cat ↔ Dict.get n cat = Some metric.
Proof.
  intros Hnd. rewrite merge_sort_Permutation. split.
  - by apply DictFacts.elem_get.
  - apply DictFacts.get_Some_elem.
Qed.

Lemma sorted_items_NoDup (cat : Dict.t MetricDefinition) :
  NoDup (Dict.keys cat) → NoDup (merge_sort name_le cat).*1.
Proof. intros Hnd. by rewrite merge_sort_Permutation. Qed.

Lemma generate_lines_spec w g r :
  catalog_wf (metrics g) →
  let g1 := (scan_directory w g r).1 in
  let out := (generate_lines w g r).1.1 in
  let g' := (generate_lines w g r).1.2 in
  let r' := (generate_lines w g r).2 in
  metrics g' = metrics g1
  ∧ catalog_wf (metrics g')
  ∧ unit_draw r' = unit_draw r
  ∧ (rng_ok r → store_le (counter_state g1) (counter_state g'))
  ∧ (∀ l, l ∈ out →
       (l = NoMetricsLine ∧ metrics g1 = [])
       ∨ ∃ n metric, Dict.get n (metrics g1) = Some metric
           ∧ line_of n metric (counter_state g1) (counter_state g') (unit_draw r) l)
  ∧ (∀ n metric l, Dict.get n (metrics g1) = Some metric →
       l ∈ metadata_lines n metric → l ∈ out).
Proof.
  intros Hwf. pose proof (scan_directory_wf w g r Hwf) as Hwf1.
  pose proof (proj2 (scan_directory_keeps w g r)) as Hs1.
  unfold generate_lines. destruct (scan_directory w g r) as [g1 r1]. simpl in *.
  destruct (metrics g1) as [|item cat] eqn:Hcat.
  { simpl. rewrite Hcat. split_and!; [done..|by intros; apply store_le_refl| |done].
    intros l ->%list_elem_of_singleton. by left. }
  rewrite <- Hcat in *. clear Hcat item cat. simpl.
  destruct Hwf1 as [Hnd Hstats].
  set (st0 := mkGenState (counter_state g1) r1 []).
  destruct (emit_metrics_spec (merge_sort name_le (metrics g1)) st0
              (sorted_items_NoDup _ Hnd)) as (Hs & _ & ls & Hout & Hls & Hmeta).
  simpl in Hout. rewrite Hout.
  split_and!; [done|by split|by rewrite Hs| | |].
  - intros Hr. apply (emit_metrics_store_le _ st0). unfold rng_ok. simpl. by rewrite Hs1.
  - intros l Hl. right. destruct (Hls l Hl) as (n & metric & Hin & Hline).
    exists n, metric. split; [by apply sorted_items_elem|].
    simpl in Hline. by rewrite Hs1 in Hline.
  - intros n metric l Hget Hl. eapply Hmeta; [|done]. by apply sorted_items_elem.
Qed.

(** The two catalog invariants hold at the start and after every call, so
    they hold in every state the exporter can reach. *)
Lemma init_invariants dir :
  catalog_wf (metrics (init dir)) ∧ catalog_observed (metrics (init dir)).
Proof. split; [apply catalog_wf_nil|constructor]. Qed.

Lemma generate_lines_invariants w g r :
  catalog_wf (metrics g) → catalog_observed (metrics g) →
  catalog_wf (metrics (generate_lines w g r).1.2)
  ∧ catalog_observed (metrics (generate_lines w g r).1.2).
Proof.
  intros Hwf Hobs. destruct (generate_lines_spec w g r Hwf) as (Hcat & Hwf' & _).
  split; [done|]. rewrite Hcat. by apply scan_directory_observed.
Qed.

Lemma metadata_lines_shape n metric l :
  l ∈ metadata_lines n metric →
  (l = HelpLine n (help_text metric) ∧ help_text metric ≠ "")
  ∨ (l = TypeLine n (metric_type metric) ∧ metric_type metric ≠ "").
Proof.
  unfold metadata_lines. intros [Hl|Hl]%elem_of_app.
  - destruct (String.eqb_spec (help_text metric) ""); [by apply elem_of_nil in Hl|].
    apply list_elem_of_singleton in Hl. by left.
  - destruct (String.eqb_spec (metric_type metric) ""); [by apply elem_of_nil in Hl|].
    apply list_elem_of_singleton in Hl. by right.
Qed.

(** A value line in the output comes from the catalog entry of its name. *)
Lemma value_line_origin w g r n key lbls x metric :
  catalog_wf (metrics g) →
  ValueLine n key lbls x ∈ (generate_lines w g r).1.1 →
  Dict.get n (metrics (generate_lines w g r).1.2) = Some metric →
  lbls = key_to_labels key
  ∧ key ∈ Dict.keys (group_samples (samples metric))
  ∧ value_line_ok n metric (counter_state (scan_directory w g r).1)
      (counter_state (generate_lines w g r).1.2) (unit_draw r) key x.
Proof.
  intros Hwf Hl Hget.
  destruct (generate_lines_spec w g r Hwf) as (Hcat & _ & _ & _ & Hlines & _).
  rewrite Hcat in Hget.
  destruct (Hlines _ Hl) as [[? _]|(n' & metric' & Hget' & Hline)]; [done|].
  destruct Hline as [Hmeta|(key' & x' & [= -> -> -> ->] & Hkey & Hok)].
  { by apply metadata_lines_shape in Hmeta as [[? _]|[? _]]. }
  rewrite Hget in Hget'. by injection Hget' as <-.
Qed.

(** ** Gauges stay within the observed range *)



(** ** Metrics that yield no value *)

Lemma group_samples_nil l : l = [] → group_samples l = [].
Proof. by intros ->. Qed.

Lemma emit_groups_silent n metric groups st :
  (if is_counter metric
   then ∀ key, key ∈ groups.*1 → stored (st_counters st) n key = None
   else min_value metric = None ∨ max_value metric = None) →
  fold_left (emit_group n metric) groups st = st.
Proof.
  intros Hsilent. induction groups as [|grp groups IH]; [done|].
  cbn [fold_left].
  assert (emit_group n metric st grp = st) as ->.
  { unfold emit_group. destruct (is_counter metric).
    - specialize (Hsilent grp.1). unfold stored in Hsilent.
      destruct (st_counters st !! n) as [entries|]; [|done]. simpl in Hsilent.
      rewrite Hsilent; [done|]. left.
    - by destruct Hsilent as [-> | ->]; [|destruct (min_value metric)]. }
  apply IH. destruct (is_counter metric); [|done].
  intros key Hkey. apply Hsilent. by right.
Qed.

Lemma keys_set_subseteq {V} (d : Dict.t V) k v k' :
  k' ∈ Dict.keys (Dict.set k v d) → k' = k ∨ k' ∈ Dict.keys d.
Proof.
  destruct (Dict.get k d) eqn:E.
  - rewrite DictFacts.keys_set_in by done. by right.
  - rewrite DictFacts.keys_set_new by done.
    intros [?| ->%list_elem_of_singleton]%elem_of_app; [by right|by left].
Qed.

Lemma group_samples_keys l key :
  key ∈ Dict.keys (group_samples l) →
  ∃ s, s ∈ l ∧ labels_to_key (labels s) = key.
Proof.
  unfold group_samples.
  assert (∀ acc : Dict.t (list Q),
    key ∈ Dict.keys
      (fold_left
         (λ (groups : Dict.t (list Q)) sample,
            Dict.set (labels_to_key (labels sample))
              (default [] (Dict.get (labels_to_key (labels sample)) groups)
                 ++ [value sample]) groups) l acc) →
    key ∈ Dict.keys acc ∨ ∃ s, s ∈ l ∧ labels_to_key (labels s) = key) as H.
  { induction l as [|s l IH]; intros acc; simpl; [by left|].
    intros [Hacc|(s' & Hs' & Hk)]%IH.
    - apply keys_set_subseteq in Hacc as [-> | ?]; [|by left].
      right. exists s. split; [left|done].
    - right. exists s'. split; [by right|done]. }
  intros [Hnil|?]%H; [|done]. by apply elem_of_nil in Hnil.
Qed.

(** C9, as amended.  A metric of the catalog that has no samples, or
    none of whose label groups yields a value (a counter none of whose
    label keys has a store entry, or another metric without minimum or
    maximum), gets no value line in the output of the call; its [# HELP]
    and [# TYPE] lines are written all the same whenever their text is not
    empty. *)
Theorem silent_metric_has_only_metadata_lines w g r n metric :
  catalog_wf (metrics g) →
  let g1 := (scan_directory w g r).1 in
  let out := (generate_lines w g r).1.1 in
  Dict.get n (metrics g1) = Some metric →
  samples metric = []
  ∨ (is_counter metric = true
     ∧ ∀ s, s ∈ samples metric →
         stored (counter_state g1) n (labels_to_key (labels s)) = None)
  ∨ (is_counter metric = false
     ∧ (min_value metric = None ∨ max_value metric = None)) →
  (∀ key lbls x, ValueLine n key lbls x ∉ out)
  ∧ (help_text metric ≠ "" → HelpLine n (help_text metric) ∈ out)
  ∧ (metric_type metric ≠ "" → TypeLine n (metric_type metric) ∈ out).
Proof.
  intros Hwf g1 out Hget Hsilent.
  destruct (generate_lines_spec w g r Hwf) as (Hcat & _ & _ & _ & _ & Hmeta).
  fold g1 in Hcat, Hmeta. fold out in Hmeta. split_and!.
  - intros key lbls x Hl.
    assert (Dict.get n (metrics (generate_lines w g r).1.2) = Some metric) as Hget'
      by (by rewrite Hcat).
    destruct (value_line_origin _ _ _ _ _ _ _ _ Hwf Hl Hget') as (_ & Hkey & Hok).
    fold g1 in Hok. unfold value_line_ok in Hok.
    destruct Hsilent as [Hnil|[[Hc Hnone]|[Hc Hstat]]].
    + rewrite Hnil in Hkey. by apply elem_of_nil in Hkey.
    + rewrite Hc in Hok. destruct Hok as (prev & _ & _ & Hprev & _).
      apply group_samples_keys in Hkey as (s & Hs & <-).
      by rewrite (Hnone s Hs) in Hprev.
    + rewrite Hc in Hok. destruct Hok as (lo & hi & _ & _ & Hlo & Hhi & _).
      destruct Hstat; congruence.
  - intros Hhelp. apply (Hmeta n metric); [done|]. unfold metadata_lines.
    apply elem_of_app. left. destruct (String.eqb_spec (help_text metric) ""); [done|left].
  - intros Hty. apply (Hmeta n metric); [done|]. unfold metadata_lines.
    apply elem_of_app. right. destruct (String.eqb_spec (metric_type metric) ""); [done|left].
Qed.

Lemma silent_metric_has_only_metadata_lines_witness :
  let out := (generate_lines FixtureIdle.idle_dir (init "/metrics") Fixture.rng0).1.1 in
  (∀ key lbls x, ValueLine "idle" key lbls x ∉ out)
  ∧ HelpLine "idle" "nothing to report" ∈ out.
Proof.
  intros out.
  destruct (silent_metric_has_only_metadata_lines FixtureIdle.idle_dir (init "/metrics")
              Fixture.rng0 "idle" (new_metric "idle" "" "nothing to report" [])
              catalog_wf_nil eq_refl (or_introl eq_refl)) as (Hv & Hh & _).
  split; [exact Hv|]. by apply Hh.
Defined.

(** C9, as stated, fails: the catalog holds the metric [idle] with zero
    samples, and the output of the call still has a line for it, its
    [# HELP] line. *)
Lemma metric_without_samples_still_gets_a_line :
  let res := generate_lines FixtureIdle.idle_dir (init "/metrics") Fixture.rng0 in
  (∃ metric, Dict.get "idle" (metrics res.1.2) = Some metric ∧ samples metric = [])
  ∧ res.1.1 = [HelpLine "idle" "nothing to report"]
  ∧ (generate_metrics (λ _, "") FixtureIdle.idle_dir (init "/metrics") Fixture.rng0).1.1
    = "# HELP idle nothing to report" +:+ Fixture.nl.
Proof.
  split_and!.
  - eexists. split; [vm_compute; reflexivity|done].
  - by vm_compute.
  - by vm_compute.
Qed.

(** ** A metric whose samples all carry one value *)

Module ConstantFacts.











End ConstantFacts.





(** ** Every stored series of the catalog is advanced *)






(** ** Counters over a sequence of calls *)








(** ** Label keys *)

Global Instance pair_le_total : Total pair_le.
Proof.
  intros a b. unfold pair_le.
  destruct (decide (a.1 = b.1)) as [E|E], (decide (b.1 = a.1)) as [E'|E'];
    try congruence; apply (total String.le).
Qed.

Global Instance pair_le_antisymm : AntiSymm (=) pair_le.
Proof.
  intros [a1 a2] [b1 b2]. unfold pair_le. simpl.
  destruct (decide (a1 = b1)) as [E|E], (decide (b1 = a1)) as [E'|E'];
    try congruence.
  - intros H1 H2. subst. f_equal. by apply (anti_symm String.le).
  - intros H1 H2. destruct E. by apply (anti_symm String.le).
Qed.

Global Instance pair_le_trans : Transitive pair_le.
Proof.
  intros [a1 a2] [b1 b2] [c1 c2]. unfold pair_le. simpl.
  destruct (decide (a1 = b1)) as [Eab|Eab], (decide (b1 = c1)) as [Ebc|Ebc]; simpl.
  - rewrite decide_True by congruence. apply transitivity.
  - rewrite decide_False by congruence. subst. by intros _ ?.
  - rewrite decide_False by congruence. subst. by intros ? _.
  - intros Hab Hbc. destruct (decide (a1 = c1)) as [->|Eac].
    + destruct Ebc. by apply (anti_symm String.le).
    + by etrans.
Qed.

Lemma sorted_labels_unique (l1 l2 : Dict.t string) :
  l1 ≡ₚ l2 → merge_sort pair_le l1 = merge_sort pair_le l2.
Proof.
  intros Hp. apply (Sorted_unique pair_le).
  - apply Sorted_merge_sort, _.
  - apply Sorted_merge_sort, _.
  - by rewrite !merge_sort_Permutation.
Qed.

Lemma labels_to_key_sorted (l : Dict.t string) :
  labels_to_key l =
    PyStr.join "," (map (λ '(k, v), k +:+ "=" +:+ v) (merge_sort pair_le l)).
Proof. by destruct l. Qed.

Lemma same_pairs_Permutation (l1 l2 : Dict.t string) :
  NoDup (Dict.keys l1) → NoDup (Dict.keys l2) →
  (∀ k, Dict.get k l1 = Dict.get k l2) → l1 ≡ₚ l2.
Proof.
  intros H1 H2 Hget. apply NoDup_Permutation.
  - by eapply NoDup_fmap_1.
  - by eapply NoDup_fmap_1.
  - intros [k v]. split; intros Hin.
    + apply DictFacts.get_Some_elem. rewrite <- Hget. by apply DictFacts.elem_get.
    + apply DictFacts.get_Some_elem. rewrite Hget. by apply DictFacts.elem_get.
Qed.

(** C6.  Two label dicts that hold the same name-to-value pairs, in
    whatever order they were filled, have the same label key; two samples
    carrying them therefore fall into one label group. *)
Theorem labels_to_key_order_independent (l1 l2 : Dict.t string) :
  NoDup (Dict.keys l1) → NoDup (Dict.keys l2) →
  (∀ k, Dict.get k l1 = Dict.get k l2) →
  labels_to_key l1 = labels_to_key l2
  ∧ ∀ v1 v2, group_samples [mkSample v1 l1; mkSample v2 l2]
             = [(labels_to_key l1, [v1; v2])].
Proof.
  intros H1 H2 Hget.
  assert (labels_to_key l1 = labels_to_key l2) as Hkey.
  { rewrite !labels_to_key_sorted.
    by rewrite (sorted_labels_unique l1 l2 (same_pairs_Permutation _ _ H1 H2 Hget)). }
  split; [done|]. intros v1 v2. unfold group_samples. simpl.
  by rewrite <- Hkey, String.eqb_refl.
Qed.

Lemma labels_to_key_order_independent_witness :
  labels_to_key [("a", "1"); ("b", "2")] = labels_to_key [("b", "2"); ("a", "1")].
Proof.
  refine (proj1 (labels_to_key_order_independent
                   [("a", "1"); ("b", "2")] [("b", "2"); ("a", "1")] _ _ _)).
  - apply (bool_decide_unpack _). by vm_compute.
  - apply (bool_decide_unpack _). by vm_compute.
  - intros k. simpl.
    destruct (String.eqb_spec k "a") as [->|Ha]; [done|].
    by destruct (String.eqb_spec k "b").
Defined.

(** ** Parsing a sample line and writing it out again *)

Module RoundTrip.

Lemma split_once_app c k v :
  PyStr.contains c k = false → PyStr.split_once c (k +:+ String c v) = Some (k, v).
Proof.
  induction k as [|a k IH]; simpl.
  - by rewrite Ascii.eqb_refl.
  - intros [Ha Hk]%orb_false_iff. rewrite Ha, IH by done. done.
Qed.

Lemma split_absent c s : PyStr.contains c s = false → PyStr.split c s = [s].
Proof.
  induction s as [|a s IH]; simpl; [done|].
  intros [Ha Hs]%orb_false_iff. by rewrite Ha, IH.
Qed.

Lemma split_app c s t :
  PyStr.contains c s = false → PyStr.split c (s +:+ String c t) = s :: PyStr.split c t.
Proof.
  induction s as [|a s IH]; simpl.
  - by rewrite Ascii.eqb_refl.
  - intros [Ha Hs]%orb_false_iff. by rewrite Ha, IH.
Qed.

Lemma split_join c items :
  items ≠ [] → Forall (λ i, PyStr.contains c i = false) items →
  PyStr.split c (PyStr.join (String c "") items) = items.
Proof.
  intros Hne Hall. induction Hall as [|i items Hi Hall IH]; [done|].
  unfold PyStr.join in *. simpl. destruct items as [|j items].
  - by apply split_absent.
  - change (String c "" +:+ ?t) with (String c t).
    rewrite split_app by done. by rewrite IH.
Qed.

Lemma fold_set_fresh {V} (l acc : Dict.t V) :
  NoDup (Dict.keys (acc ++ l)) →
  fold_left (λ (d : Dict.t V) '(k, v), Dict.set k v d) l acc = acc ++ l.
Proof.
  revert acc. induction l as [|[k v] l IH]; intros acc Hnd; simpl.
  - by rewrite app_nil_r.
  - assert (Dict.set k v acc = acc ++ [(k, v)]) as ->.
    { unfold Dict.keys in Hnd. rewrite fmap_app in Hnd.
      apply NoDup_app in Hnd as (_ & Hdisj & _).
      assert (k ∉ acc.*1) as Hk by (intros ?; eapply Hdisj; [done|left]).
      clear -Hk. induction acc as [|[k' v'] acc IH]; simpl; [done|].
      apply not_elem_of_cons in Hk as [Hne Hk].
      destruct (String.eqb_spec k k'); [done|]. by rewrite IH. }
    rewrite IH; rewrite <- app_assoc; done.
Qed.

Lemma fold_items (l acc : Dict.t string) :
  (∀ k v, (k, v) ∈ l → PyStr.contains "=" k = false) →
  fold_left
    (λ (d : Dict.t string) item,
       match PyStr.split_once "=" item with
       | Some (k, v) => Dict.set k v d
       | None => d
       end)
    (map (λ '(k, v), k +:+ "=" +:+ v) l) acc
  = fold_left (λ (d : Dict.t string) '(k, v), Dict.set k v d) l acc.
Proof.
  revert acc. induction l as [|[k v] l IH]; intros acc Hclean; simpl; [done|].
  change ("=" +:+ v) with (String "=" v).
  rewrite split_once_app by (apply (Hclean k v); left).
  apply IH. intros k' v' Hin. apply (Hclean k' v'). by right.
Qed.

(** Where [_key_to_labels] does undo [_labels_to_key]: label names free
    of the two separators, label values free of the comma. *)
Lemma key_to_labels_to_key (l : Dict.t string) :
  NoDup (Dict.keys l) →
  (∀ k v, (k, v) ∈ l →
     PyStr.contains "=" k = false ∧ PyStr.contains "," k = false ∧ PyStr.contains "," v = false) →
  key_to_labels (labels_to_key l) = merge_sort pair_le l
  ∧ ∀ k, Dict.get k (key_to_labels (labels_to_key l)) = Dict.get k l.
Proof.
  intros Hnd Hclean.
  assert (NoDup (Dict.keys (merge_sort pair_le l))) as Hnd'.
  { unfold Dict.keys. by rewrite merge_sort_Permutation. }
  assert (key_to_labels (labels_to_key l) = merge_sort pair_le l) as Heq.
  { rewrite labels_to_key_sorted. unfold key_to_labels.
    assert (∀ k v, (k, v) ∈ merge_sort pair_le l →
      PyStr.contains "=" k = false ∧ PyStr.contains "," k = false ∧ PyStr.contains "," v = false) as Hclean'.
    { intros k v Hin. apply Hclean. by rewrite merge_sort_Permutation in Hin. }
    destruct (merge_sort pair_le l) as [|[k0 v0] sorted] eqn:Hs; [done|].
    set (items := map (λ '(k, v), k +:+ "=" +:+ v) ((k0, v0) :: sorted)).
    assert (String.eqb (PyStr.join "," items) "" = false) as ->.
    { apply String.eqb_neq. unfold items, PyStr.join. simpl.
      destruct k0; destruct sorted; simpl; discriminate. }
    rewrite split_join; [|done|].
    - unfold items. rewrite fold_items by (intros k v Hin; by apply (Hclean' k v)).
      by apply (fold_set_fresh ((k0, v0) :: sorted) []).
    - unfold items. apply Forall_fmap, Forall_forall. intros [k v] Hin. simpl.
      destruct (Hclean' k v Hin) as (_ & Hk & Hv).
      clear -Hk Hv. induction k as [|a k IH]; simpl in *; [done|].
      apply orb_false_iff in Hk as [Ha Hk]. by rewrite Ha, IH. }
  split; [done|]. intros k. rewrite Heq.
  destruct (Dict.get k l) as [v|] eqn:E.
  - apply DictFacts.elem_get; [done|]. rewrite merge_sort_Permutation.
    by apply DictFacts.get_Some_elem.
  - apply DictFacts.get_None_keys. apply DictFacts.get_None_keys in E.
    unfold Dict.keys. by rewrite merge_sort_Permutation.
Qed.

End RoundTrip.

(** C7 at the failing input.  The line is valid and parses to the metric
    [m] with value 1 and the label [a] of value [x,y]; the one series of
    [m] is written back with the same name and the same value, but with
    the label value cut at the comma. *)
Lemma comma_in_label_value_is_cut :
  let res := generate_lines FixtureComma.comma_dir (init "/metrics") Fixture.rng0 in
  (∃ metric, Parser.parse_content FixtureComma.comma_line ≫= Dict.get "m" = Some metric
     ∧ samples metric = [mkSample 1 [("a", "x,y")]])
  ∧ (∃ x, res.1.1 = [ValueLine "m" "a=x,y" [("a", "x")] x] ∧ (x == 1)%Q)
  ∧ key_to_labels (labels_to_key [("a", "x,y")]) = [("a", "x")]
  ∧ Dict.get "a" (key_to_labels (labels_to_key [("a", "x,y")])) ≠ Some "x,y"
  ∧ (generate_metrics (λ _, "1.0") FixtureComma.comma_dir (init "/metrics") Fixture.rng0).1.1
    = "m{a=" +:+ quoted "x" +:+ "} 1.0" +:+ Fixture.nl.
Proof.
  split_and!.
  - eexists. split; [vm_compute; reflexivity|done].
  - eexists. split; [vm_compute; reflexivity|done].
  - by vm_compute.
  - by vm_compute.
  - by vm_compute.
Qed.

(** ** The name and the value of a valid sample line *)




(** * Further properties *)

(** ** Strings *)

Module StrFacts.


Lemma app_cons c s t : String c s +:+ t = String c (s +:+ t).
Proof. reflexivity. Qed.

Lemma app_nil_r s : s +:+ "" = s.
Proof. induction s as [|c s IH]; [done|]. by rewrite app_cons, IH. Qed.

Lemma app_assoc s1 s2 s3 : (s1 +:+ s2) +:+ s3 = s1 +:+ s2 +:+ s3.
Proof. induction s1 as [|c s1 IH]; [done|]. by rewrite !app_cons, IH. Qed.

Lemma length_app s1 s2 :
  String.length (s1 +:+ s2) = String.length s1 + String.length s2.
Proof. induction s1 as [|c s1 IH]; [done|]. rewrite app_cons. simpl. by rewrite IH. Qed.

Lemma take_length_app s1 s2 : PyStr.take (String.length s1) (s1 +:+ s2) = s1.
Proof.
  induction s1 as [|c s1 IH]; [by destruct s2|]. rewrite app_cons. simpl. by rewrite IH.
Qed.

Lemma take_app s1 s2 :
  PyStr.take (String.length (s1 +:+ s2) - String.length s2) (s1 +:+ s2) = s1.
Proof.
  rewrite length_app. replace (_ + _ - _) with (String.length s1) by lia.
  apply take_length_app.
Qed.

End StrFacts.

(** ** The matcher only succeeds on what the pattern matches *)

Module ReFacts.
Import ReLang.

Lemma star_greedy_sound {A} p s (k : string → option A) a :
  Re.star_greedy p s k = Some a →
  ∃ text rest, s = text +:+ rest ∧ all_chars p text ∧ k rest = Some a.
Proof.
  induction s as [|c s IH]; simpl.
  - intros Hk. by exists "", "".
  - destruct (p c) eqn:Hp; [|intros Hk; by exists "", (String c s)].
    destruct (Re.star_greedy p s k) as [a'|] eqn:E.
    + intros [= ->]. destruct (IH eq_refl) as (text & rest & -> & Hall & Hk).
      by exists (String c text), rest.
    + intros Hk. by exists "", (String c s).
Qed.

Lemma star_lazy_sound {A} p s (k : string → option A) a :
  Re.star_lazy p s k = Some a →
  ∃ text rest, s = text +:+ rest ∧ all_chars p text ∧ k rest = Some a.
Proof.
  induction s as [|c s IH]; simpl.
  - destruct (k "") eqn:E; [|done]. intros [= ->]. by exists "", "".
  - destruct (k (String c s)) as [a'|] eqn:E.
    + intros [= ->]. by exists "", (String c s).
    + destruct (p c) eqn:Hp; [|done]. intros Hk.
      destruct (IH Hk) as (text & rest & -> & Hall & Hk').
      by exists (String c text), rest.
Qed.

Lemma run_sound {A} r s g (k : string → Re.groups → option A) a :
  Re.run r s g k = Some a →
  ∃ text rest new,
    s = text +:+ rest ∧ matches r text new ∧ k rest (new ++ g) = Some a.
Proof.
  revert s g k a. induction r as [|p|r1 IH1 r2 IH2|r1 IH1 r2 IH2|p|p|n r IH|];
    intros s g k a; cbn [Re.run].
  - intros Hk. by exists "", s, [].
  - destruct s as [|c s]; [done|]. destruct (p c) eqn:Hp; [|done].
    intros Hk. exists (String c ""), s, []. split; [done|]. split; [|done].
    split; [by exists c|done].
  - intros H. apply IH1 in H as (t1 & rest1 & n1 & -> & Hm1 & H).
    apply IH2 in H as (t2 & rest & n2 & -> & Hm2 & H).
    exists (t1 +:+ t2), rest, (n2 ++ n1). split; [|split].
    + by rewrite StrFacts.app_assoc.
    + by exists t1, t2, n1, n2.
    + by rewrite <- app_assoc.
  - destruct (Re.run r1 s g k) as [a'|] eqn:E.
    + intros [= ->]. apply IH1 in E as (text & rest & new & -> & Hm & Hk).
      exists text, rest, new. split; [done|]. split; [by left|done].
    + intros H. apply IH2 in H as (text & rest & new & -> & Hm & Hk).
      exists text, rest, new. split; [done|]. split; [by right|done].
  - intros H. apply star_greedy_sound in H as (text & rest & -> & Hall & Hk).
    by exists text, rest, [].
  - intros H. apply star_lazy_sound in H as (text & rest & -> & Hall & Hk).
    by exists text, rest, [].
  - intros H. apply IH in H as (text & rest & new & -> & Hm & Hk).
    rewrite StrFacts.take_app in Hk.
    exists text, rest, ((n, text) :: new). split; [done|]. split; [|done].
    by exists new.
  - intros H. exists "", s, []. split; [done|]. split; [done|].
    destruct s as [|c [|c' s]]; [done| |done].
    by destruct (PyStr.is_char "010" c).
Qed.

Lemma match_prefix_sound r s rest g :
  Re.match_prefix r s = Some (rest, g) →
  ∃ text, s = text +:+ rest ∧ matches r text g.
Proof.
  unfold Re.match_prefix. intros H.
  apply run_sound in H as (text & rest' & new & -> & Hm & [= <- <-]).
  exists text. by rewrite app_nil_r.
Qed.

End ReFacts.

(** ** [float()] accepts what [value_pattern] matches *)

Module LiteralFacts.
Import ReLang Literal.


Lemma digit_not_dot c : PyStr.is_digit c = true → PyStr.is_char "." c = false.
Proof.
  intros Hd. unfold PyStr.is_char. by destruct (Ascii.eqb_spec "." c) as [<-|_].
Qed.



Lemma matches_value_pattern text new :
  matches Pattern.value_pattern text new → float_literal text ∧ new = [(3, text)].
Proof.
  unfold Pattern.value_pattern, Re.Opt, Re.Plus, Re.Chr. cbn [matches].
  intros (inner & -> & sg & t1 & n1 & n1' & -> & -> & Hsg
          & d1 & t2 & n2 & n2' & -> & -> & [Hd1 ->]
          & dot & t3 & n3 & n3' & -> & -> & Hdot
          & d2 & ex & n4 & n4' & -> & -> & Hd2 & Hex).
  assert (sign_part sg ∧ n1 = []) as [Hsg' ->].
  { destruct Hsg as [[(c & -> & Hc) ->]|[-> ->]]; (split; [|done]).
    - right. by exists c.
    - by left. }
  assert ((dot = "" ∨ dot = ".") ∧ n3 = []) as [Hdot' ->].
  { destruct Hdot as [[(c & -> & Hc) ->]|[-> ->]]; (split; [|done]); [|by left].
    right. unfold PyStr.is_char in Hc. by apply Ascii.eqb_eq in Hc as <-. }
  assert (digits1 d2 ∧ n4 = []) as [Hd2' ->].
  { destruct Hd2 as (c & d & na & nb & -> & -> & [(c' & -> & Hc) ->] & [Hd ->]).
    split; [|done]. by exists c', d. }
  assert (exp_part ex ∧ n4' = []) as [Hex' ->].
  { destruct Hex as [(e & t & na & nb & -> & -> & [(c & -> & Hc) ->]
                      & sg' & d3 & nc & nd & -> & -> & Hsg2 & Hd3)|[-> ->]];
      [|split; [by left|done]].
    assert (sign_part sg' ∧ nc = []) as [Hsg2' ->].
    { destruct Hsg2 as [[(c2 & -> & Hc2) ->]|[-> ->]]; (split; [|done]).
      - right. by exists c2.
      - by left. }
    destruct Hd3 as (c3 & d & ne & nf & -> & -> & [(c4 & -> & Hc4) ->] & [Hd ->]).
    split; [|done]. right. exists c, sg', (String c4 d).
    split_and!; [done..|]. by exists c4, d. }
  split; [|done]. by exists sg, d1, dot, d2, ex.
Qed.






End LiteralFacts.

(** ** What [re.match(pattern, line)] captures *)

Lemma matches_pattern text g :
  ReLang.matches Pattern.pattern text g →
  ∃ n lbl v ts,
    sample_groups g n lbl v ts ∧ metric_name n ∧ Literal.float_literal v
    ∧ text = n +:+ match lbl with Some l => "{" +:+ l +:+ "}" | None => "" end
               +:+ " " +:+ v
               +:+ match ts with Some t => " " +:+ t | None => "" end.
Proof.
  unfold Pattern.pattern.
  intros (t1 & r1 & n1 & m1 & -> & -> & Hname
          & t2 & r2 & n2 & m2 & -> & -> & Hlbl
          & t3 & r3 & n3 & m3 & -> & -> & [(sp & -> & Hsp) ->]
          & t4 & r4 & n4 & m4 & -> & -> & Hval
          & t5 & r5 & n5 & m5 & -> & -> & Hts & [-> ->]).
  apply LiteralFacts.matches_value_pattern in Hval as [Hlit ->].
  apply Ascii.eqb_eq in Hsp as <-.
  destruct Hname as (inner & -> & a & b & na & nb & -> & -> & [(c & -> & Hc) ->] & [Hrest ->]).
  assert (∃ lbl, n2 = match lbl with Some l => [(2, l)] | None => [] end
            ∧ t2 = match lbl with Some l => "{" +:+ l +:+ "}" | None => "" end)
    as (lbl & -> & ->).
  { destruct Hlbl as [(a1 & b1 & na1 & nb1 & -> & -> & [(c1 & -> & Hc1) ->]
                       & a2 & b2 & na2 & nb2 & -> & -> & (inner & -> & [_ ->])
                       & [(c2 & -> & Hc2) ->])|[-> ->]].
    - apply Ascii.eqb_eq in Hc1 as <-. apply Ascii.eqb_eq in Hc2 as <-.
      by exists (Some a2).
    - by exists None. }
  assert (∃ ts, n5 = match ts with Some t => [(4, t)] | None => [] end
            ∧ t5 = match ts with Some t => " " +:+ t | None => "" end)
    as (ts & -> & ->).
  { destruct Hts as [(a1 & b1 & na1 & nb1 & -> & -> & [(c1 & -> & Hc1) ->]
                       & inner & -> & a2 & b2 & na2 & nb2 & -> & ->
                       & [(c2 & -> & Hc2) ->] & [_ ->])|[-> ->]].
    - apply Ascii.eqb_eq in Hc1 as <-. by exists (Some (String c2 "" +:+ b2)).
    - by exists None. }
  exists (String c b), lbl, t4, ts. split_and!.
  - unfold sample_groups. by rewrite !app_nil_r, <- !app_assoc.
  - by exists c, b.
  - done.
  - by rewrite StrFacts.app_nil_r.
Qed.



(** ** Parsing never raises *)




(** ** Which files a scan reads, and when it fails *)


(** Only the files whose name ends in [.prom] count: the others are not
    opened, so they change nothing, readable or not. *)
Theorem scan_files_ignores_other_suffixes files acc :
  scan_files files acc
  = scan_files (filter (λ f, PyStr.endswith ".prom" f.1 = true) files) acc.
Proof.
  revert acc. induction files as [|[fn f] files IH]; intros acc; [done|].
  rewrite filter_cons. cbn [scan_files fst]. destruct (PyStr.endswith ".prom" fn) eqn:Hfn.
  - rewrite decide_True by done. cbn [scan_files]. rewrite Hfn.
    destruct (Parser.parse f); simpl; [apply IH|done].
  - rewrite decide_False by done. apply IH.
Qed.

(** ** What the label loop of the parser builds *)

Lemma finditer_from_elem r s skip g :
  g ∈ Re.finditer_from r s skip →
  ∃ s' rest, Re.match_prefix r s' = Some (rest, g).
Proof.
  revert skip. induction s as [|c s IH]; intros skip; destruct skip as [|skip];
    cbn [Re.finditer_from].
  - destruct (Re.match_prefix r "") as [[rest g']|] eqn:E.
    + intros [-> | Hin]%elem_of_cons; [by exists "", rest|by apply elem_of_nil in Hin].
    + intros Hin. by apply elem_of_nil in Hin.
  - intros Hin. by apply elem_of_nil in Hin.
  - destruct (Re.match_prefix r (String c s)) as [[rest g']|] eqn:E.
    + intros [-> | Hin]%elem_of_cons; [by exists (String c s), rest|by eapply IH].
    + by apply IH.
  - by apply IH.
Qed.

Lemma matches_label_pattern text g :
  ReLang.matches Pattern.label_pattern text g →
  ∃ k v, g = [(2, v); (1, k)] ∧ label_name k.
Proof.
  unfold Pattern.label_pattern.
  intros (t1 & r1 & n1 & m1 & -> & -> & (inner & -> & a & b & na & nb & -> & ->
            & [(c & -> & Hc) ->] & [Hrest ->])
          & t2 & r2 & n2 & m2 & -> & -> & [_ ->]
          & t3 & r3 & n3 & m3 & -> & -> & [_ ->]
          & t4 & r4 & n4 & m4 & -> & -> & (inner2 & -> & [_ ->]) & [_ ->]).
  exists (String c b), t4. split; [done|]. by exists c, b.
Qed.

Lemma elem_set {V} (d : Dict.t V) k v k' v' :
  (k', v') ∈ Dict.set k v d → (k' = k ∧ v' = v) ∨ (k', v') ∈ d.
Proof.
  induction d as [|[k0 v0] d IH]; simpl.
  - intros [= -> ->]%list_elem_of_singleton. by left.
  - destruct (String.eqb_spec k k0) as [->|Hne].
    + intros [[= -> ->]|Hin]%elem_of_cons; [by left|right; by right].
    + intros [[= -> ->]|Hin]%elem_of_cons; [right; left|].
      destruct (IH Hin) as [?|?]; [by left|right; by right].
Qed.

Lemma parse_labels_wf labels_str : labels_wf (Parser.parse_labels labels_str).
Proof.
  unfold Parser.parse_labels.
  assert (∀ g, g ∈ Re.finditer Pattern.label_pattern labels_str →
            label_name (Parser.text_of 1 g)) as Hnames.
  { intros g (s' & rest & Hm)%finditer_from_elem.
    apply ReFacts.match_prefix_sound in Hm as (text & _ & Hm).
    by apply matches_label_pattern in Hm as (k & v & -> & Hk). }
  assert (labels_wf (@nil (string * string))) as Hnil.
  { split; [apply NoDup_nil_2|]. intros k v Hin. by apply elem_of_nil in Hin. }
  revert Hnames Hnil. generalize (@nil (string * string)).
  induction (Re.finditer Pattern.label_pattern labels_str) as [|g gs IH];
    intros acc Hnames Hacc; [done|].
  cbn [fold_left]. apply IH.
  - intros g' Hg'. apply Hnames. by right.
  - destruct Hacc as [Hnd Hk]. split; [by apply DictFacts.NoDup_set|].
    intros k v [[-> _]|Hin]%elem_set; [apply Hnames; left|by eapply Hk].
Qed.

(** ** Invariants of the catalog entries *)

Lemma Forall_set_key {V} (P : string * V → Prop) (d : Dict.t V) k v :
  P (k, v) → Forall P d → Forall P (Dict.set k v d).
Proof.
  intros Hv. induction 1 as [|[k' v'] d Hx Hd IH]; simpl.
  - by constructor.
  - destruct (String.eqb_spec k k') as [<-|?]; constructor; auto.
Qed.

Lemma Forall_get {V} (P : string * V → Prop) (d : Dict.t V) k v :
  Forall P d → Dict.get k d = Some v → P (k, v).
Proof.
  intros Hd Hg. apply DictFacts.get_Some_elem in Hg.
  rewrite Forall_forall in Hd. by apply Hd.
Qed.

Lemma labels_wf_nil : labels_wf [].
Proof. split; [apply NoDup_nil_2|]. intros k v Hin. by apply elem_of_nil in Hin. Qed.

Lemma parse_line_entries d l d' :
  Forall (λ kv, name kv.2 = kv.1 ∧ samples_wf kv) d →
  Parser.parse_line d l = Some d' →
  Forall (λ kv, name kv.2 = kv.1 ∧ samples_wf kv) d'.
Proof.
  intros Hd. unfold Parser.parse_line.
  repeat match goal with
  | |- context [if ?b then _ else _] => destruct b
  | |- context [match PyStr.split_once ?a ?b with _ => _ end] =>
      destruct (PyStr.split_once a b) as [[? ?]|]
  | |- context [match Dict.get ?a ?b with _ => _ end] =>
      let E := fresh "E" in destruct (Dict.get a b) eqn:E
  | |- context [match Re.match_ ?a ?b with _ => _ end] => destruct (Re.match_ a b)
  | |- context [Float.of_string ?a] => destruct (Float.of_string a); simpl
  end;
  intros [= <-]; try done;
  apply Forall_set_key; try done;
  try match goal with
  | E : Dict.get _ _ = Some ?m |- _ =>
      destruct (Forall_get _ _ _ _ Hd E) as [Hname Hs]; simpl in Hname, Hs
  end;
  (split; [done|]); unfold samples_wf in *; simpl;
  try done; try (by constructor);
  try (apply Forall_app; split; [done|]);
  repeat constructor; simpl;
  try apply labels_wf_nil; try apply parse_labels_wf.
Qed.

Lemma parse_lines_entries ls d d' :
  Forall (λ kv, name kv.2 = kv.1 ∧ samples_wf kv) d →
  Parser.parse_lines d ls = Some d' →
  Forall (λ kv, name kv.2 = kv.1 ∧ samples_wf kv) d'.
Proof.
  revert d. induction ls as [|l ls IH]; intros d Hd; simpl.
  - by intros [= <-].
  - destruct (Parser.parse_line d l) as [d1|] eqn:E; simpl; [|done].
    apply IH. by eapply parse_line_entries.
Qed.

Lemma post_init_fields m :
  name (post_init m) = name m ∧ metric_type (post_init m) = metric_type m
  ∧ help_text (post_init m) = help_text m
  ∧ is_counter (post_init m) = String.eqb (PyStr.lower (metric_type m)) "counter".
Proof. unfold post_init. by destruct (samples m). Qed.

Lemma parse_entries f d :
  Parser.parse f = Some d → Forall (λ kv, entry_consistent kv ∧ samples_wf kv) d.
Proof.
  destruct f as [c|]; simpl; [|done]. unfold Parser.parse_content.
  destruct (Parser.parse_lines _ _) as [d0|] eqn:E; simpl; [|done].
  intros [= <-]. apply parse_lines_entries in E; [|constructor].
  apply Forall_fmap. eapply Forall_impl; [exact E|].
  intros [k m] [Hname Hs]. simpl in *.
  destruct (post_init_fields m) as (Hn & Hty & _ & Hc).
  split; [split|]; simpl.
  - by rewrite Hn.
  - by rewrite Hc, Hty.
  - unfold samples_wf in *. simpl in *. by rewrite post_init_samples.
Qed.

Lemma merge_file_entries acc fm :
  Forall (λ kv, entry_consistent kv ∧ samples_wf kv) acc →
  Forall (λ kv, entry_consistent kv ∧ samples_wf kv) fm →
  Forall (λ kv, entry_consistent kv ∧ samples_wf kv) (merge_file acc fm).
Proof.
  unfold merge_file. intros Hacc Hfm. revert acc Hacc.
  induction Hfm as [|[n m] fm Hm _ IH]; intros acc Hacc; simpl; [done|].
  apply IH. destruct (Dict.get n acc) as [m0|] eqn:E.
  - apply Forall_set_key; [|done].
    destruct (Forall_get _ _ _ _ Hacc E) as [[Hn Hc] Hs]. destruct Hm as [_ Hs'].
    split; [done|]. unfold samples_wf in *. simpl in *. by apply Forall_app.
  - by apply Forall_set_key.
Qed.

Lemma scan_files_entries files acc d :
  Forall (λ kv, entry_consistent kv ∧ samples_wf kv) acc →
  scan_files files acc = Some d →
  Forall (λ kv, entry_consistent kv ∧ samples_wf kv) d.
Proof.
  revert acc. induction files as [|[fn f] files IH]; intros acc Hacc; simpl.
  - by intros [= <-].
  - destruct (PyStr.endswith _ _); [|by apply IH].
    destruct (Parser.parse f) as [fm|] eqn:E; simpl; [|done].
    apply IH, merge_file_entries; [done|]. by eapply parse_entries.
Qed.

Lemma generate_lines_metrics w g r :
  metrics (generate_lines w g r).1.2 = metrics (scan_directory w g r).1.
Proof.
  unfold generate_lines. destruct (scan_directory w g r) as [g1 r1].
  destruct (metrics g1) eqn:E; simpl; congruence.
Qed.

(** A property of catalogs that every rebuilt catalog has holds in every
    state a sequence of calls goes through, once it holds at the start. *)
Lemma run_catalog_invariant (P : Dict.t MetricDefinition → Prop) ws g r c :
  (∀ files cat, scan_files files [] = Some cat → P cat) →
  P (metrics g) → c ∈ run ws g r →
  P (metrics (call_scanned c)) ∧ P (metrics (call_after c)).
Proof.
  intros Hscan. revert g r. induction ws as [|w ws IH]; intros g r Hg; simpl.
  { intros Hc. by apply elem_of_nil in Hc. }
  assert (P (metrics (scan_directory w g r).1)) as Hg1.
  { destruct (scan_directory_metrics w g r) as [->|(files & _ & E)]; [done|].
    by eapply Hscan. }
  intros [-> | Hin]%elem_of_cons.
  - simpl. by rewrite generate_lines_metrics.
  - eapply IH; [|exact Hin]. by rewrite generate_lines_metrics.
Qed.

Lemma first_call_in_trace : first_call ∈ run FixtureTrace.two_calls (init "/metrics") Fixture.rng0.
Proof. left. Defined.

Lemma reachable_entries ws dir r c :
  c ∈ run ws (init dir) r →
  Forall (λ kv, entry_consistent kv ∧ samples_wf kv) (metrics (call_after c)).
Proof.
  intros Hc.
  apply (run_catalog_invariant
           (Forall (λ kv, entry_consistent kv ∧ samples_wf kv)) ws (init dir) r c);
    [|constructor|done].
  intros files cat. apply scan_files_entries. constructor.
Qed.

(** In every state the exporter reaches, each catalog entry is stored
    under its own name and its [is_counter] flag is the case-insensitive
    comparison of its declared type with [counter]. *)
Theorem catalog_entries_consistent ws dir r c :
  c ∈ run ws (init dir) r → Forall entry_consistent (metrics (call_after c)).
Proof.
  intros Hc. eapply Forall_impl; [by eapply reachable_entries|]. by intros kv [? _].
Qed.

Lemma catalog_entries_consistent_witness :
  Forall entry_consistent (metrics (call_after first_call)).
Proof.
  exact (catalog_entries_consistent FixtureTrace.two_calls "/metrics" Fixture.rng0
           first_call first_call_in_trace).
Defined.

Lemma reachable_labels_wf ws dir r c n m s :
  c ∈ run ws (init dir) r →
  Dict.get n (metrics (call_after c)) = Some m → s ∈ samples m →
  labels_wf (labels s).
Proof.
  intros Hc Hget Hs.
  destruct (Forall_get _ _ _ _ (reachable_entries ws dir r c Hc) Hget) as [_ Hwf].
  unfold samples_wf in Hwf. rewrite Forall_forall in Hwf. by apply Hwf.
Qed.

(** In every state the exporter reaches, the label dict of every sample
    has unique names, and each name is an identifier of the label
    grammar. *)
Theorem sample_labels_well_formed ws dir r c n m s :
  c ∈ run ws (init dir) r →
  Dict.get n (metrics (call_after c)) = Some m → s ∈ samples m →
  labels_wf (labels s).
Proof.
  intros Hc Hget Hs.
  pose proof (reachable_entries ws dir r c Hc) as Hall.
  rewrite Forall_forall in Hall.
  destruct (Hall (n, m) (DictFacts.get_Some_elem _ _ _ Hget)) as [_ Hwf].
  unfold samples_wf in Hwf. simpl in Hwf. rewrite Forall_forall in Hwf. by apply Hwf.
Qed.

Lemma sample_labels_well_formed_witness : labels_wf [("a", "1")].
Proof.
  refine (sample_labels_well_formed FixtureTrace.two_calls "/metrics" Fixture.rng0
            first_call "c" _ (mkSample 5 [("a", "1")]) first_call_in_trace _ _).
  - vm_compute. reflexivity.
  - vm_compute. left.
Defined.

(** ** Label keys of parsed samples *)

Lemma all_chars_contains p s c :
  ReLang.all_chars p s → p c = false → PyStr.contains c s = false.
Proof.
  intros Hs Hc. induction s as [|a s IH]; [done|]. destruct Hs as [Ha Hs].
  simpl. rewrite IH by done. destruct (Ascii.eqb_spec a c) as [->|?]; [congruence|done].
Qed.

Lemma label_name_clean k :
  label_name k → PyStr.contains "=" k = false ∧ PyStr.contains "," k = false.
Proof.
  intros (c & rest & -> & Hc & Hrest).
  assert (ReLang.all_chars Pattern.label_char (String c rest)) as Hall.
  { split; [|done]. unfold Pattern.label_char. by rewrite Hc. }
  split; by apply (all_chars_contains Pattern.label_char).
Qed.

(** For a sample of the catalog whose label values hold no comma, the
    labels written out are the parsed ones: [_key_to_labels] gives back
    the sorted items of the parsed dict, hence the same name-to-value
    mapping. *)
Theorem parsed_labels_round_trip ws dir r c n m s :
  c ∈ run ws (init dir) r →
  Dict.get n (metrics (call_after c)) = Some m → s ∈ samples m →
  (∀ k v, (k, v) ∈ labels s → PyStr.contains "," v = false) →
  key_to_labels (labels_to_key (labels s)) = merge_sort pair_le (labels s)
  ∧ ∀ k, Dict.get k (key_to_labels (labels_to_key (labels s))) = Dict.get k (labels s).
Proof.
  intros Hc Hget Hs Hvals.
  destruct (reachable_labels_wf ws dir r c n m s Hc Hget Hs) as [Hnd Hnames].
  apply RoundTrip.key_to_labels_to_key; [done|].
  intros k v Hin. destruct (label_name_clean k (Hnames k v Hin)) as [? ?].
  split_and!; [done..|]. by eapply Hvals.
Qed.

Lemma parsed_labels_round_trip_witness :
  key_to_labels (labels_to_key [("a", "1")]) = merge_sort pair_le [("a", "1")].
Proof.
  refine (proj1 (parsed_labels_round_trip FixtureTrace.two_calls "/metrics" Fixture.rng0
            first_call "c" _ (mkSample 5 [("a", "1")]) first_call_in_trace _ _ _)).
  - vm_compute. reflexivity.
  - vm_compute. left.
  - intros k v [[= -> ->]|Hin]%elem_of_cons; [done|]. by apply elem_of_nil in Hin.
Defined.

(** On label dicts free of the separators, the label key tells the
    label sets apart: two dicts with the same key hold the same
    name-to-value pairs. *)
Theorem labels_to_key_injective (l1 l2 : Dict.t string) :
  NoDup (Dict.keys l1) → NoDup (Dict.keys l2) →
  clean_labels l1 → clean_labels l2 →
  labels_to_key l1 = labels_to_key l2 →
  ∀ k, Dict.get k l1 = Dict.get k l2.
Proof.
  intros H1 H2 Hc1 Hc2 Hkey k.
  destruct (RoundTrip.key_to_labels_to_key l1 H1 Hc1) as [_ <-].
  destruct (RoundTrip.key_to_labels_to_key l2 H2 Hc2) as [_ <-].
  by rewrite Hkey.
Qed.

Lemma labels_to_key_injective_witness :
  Dict.get "a" [("a", "1"); ("b", "2")] = Dict.get "a" [("b", "2"); ("a", "1")].
Proof.
  refine (labels_to_key_injective [("a", "1"); ("b", "2")] [("b", "2"); ("a", "1")]
            _ _ _ _ _ "a").
  - apply (bool_decide_unpack _). by vm_compute.
  - apply (bool_decide_unpack _). by vm_compute.
  - intros k v Hin.
    repeat (apply elem_of_cons in Hin as [[= -> ->]|Hin]; [done|]).
    by apply elem_of_nil in Hin.
  - intros k v Hin.
    repeat (apply elem_of_cons in Hin as [[= -> ->]|Hin]; [done|]).
    by apply elem_of_nil in Hin.
  - by vm_compute.
Defined.

(** ** Bounds on the statistics *)

Module StatsFacts.






End StatsFacts.



(** ** The layout of the output *)

Lemma emit_groups_block n metric groups st :
  ∃ kxs, kxs.*1 `sublist_of` groups.*1
    ∧ st_out (fold_left (emit_group n metric) groups st)
      = st_out st ++ map (value_line n) kxs.
Proof.
  revert st. induction groups as [|grp groups IH]; intros st.
  { exists []. split; [done|]. simpl. by rewrite app_nil_r. }
  cbn [fold_left]. destruct (IH (emit_group n metric st grp)) as (kxs & Hsub & ->).
  destruct (emit_group_step n metric st grp)
    as [-> _|prev _ _ inc -> _ _ _|lo hi _ _ _ -> _ _].
  - exists kxs. split; [|done]. rewrite fmap_cons. by apply sublist_cons.
  - exists ((grp.1, (prev + inc)%Q) :: kxs). split.
    + rewrite !fmap_cons. by apply sublist_skip.
    + by rewrite <- app_assoc.
  - exists ((grp.1, (gauge_value metric lo hi (st_rng st)).1) :: kxs). split.
    + rewrite !fmap_cons. by apply sublist_skip.
    + by rewrite <- app_assoc.
Qed.

Lemma emit_metrics_blocks items st :
  ∃ blocks,
    Forall2 (λ item kxs,
       kxs.*1 `sublist_of` Dict.keys (group_samples (samples item.2))) items blocks
    ∧ st_out (fold_left emit_metric items st)
      = st_out st ++ concat (zip_with metric_block items blocks).
Proof.
  revert st. induction items as [|[n metric] items IH]; intros st.
  { exists []. split; [constructor|]. simpl. by rewrite app_nil_r. }
  cbn [fold_left]. destruct (IH (emit_metric st (n, metric))) as (blocks & Hall & ->).
  unfold emit_metric.
  destruct (emit_groups_block n metric (group_samples (samples metric))
              (mkGenState (st_counters st) (st_rng st)
                 (st_out st ++ metadata_lines n metric))) as (kxs & Hsub & ->).
  exists (kxs :: blocks). split; [by constructor|].
  simpl. unfold metric_block at 2. simpl. by rewrite <- !app_assoc.
Qed.

Lemma generate_lines_layout w g r :
  let cat := metrics (scan_directory w g r).1 in
  ∃ blocks,
    Forall2 (λ item kxs,
       kxs.*1 `sublist_of` Dict.keys (group_samples (samples item.2)))
      (merge_sort name_le cat) blocks
    ∧ (generate_lines w g r).1.1
      = match cat with
        | [] => [NoMetricsLine]
        | _ :: _ => concat (zip_with metric_block (merge_sort name_le cat) blocks)
        end.
Proof.
  intros cat. subst cat. unfold generate_lines.
  destruct (scan_directory w g r) as [g1 r1]. simpl.
  destruct (emit_metrics_blocks (merge_sort name_le (metrics g1))
              (mkGenState (counter_state g1) r1 [])) as (blocks & Hall & Hout).
  exists blocks. split; [done|]. by destruct (metrics g1).
Qed.

(** The output of a call: the marker when the catalog is empty;
    otherwise, metric by metric in the sorted order of the catalog, the
    metadata lines of the metric followed by one value line for some of
    its label groups, in the order the groups first appear in its
    samples. *)
Theorem output_layout w g r :
  let cat := metrics (scan_directory w g r).1 in
  ∃ blocks,
    Forall2 (λ item kxs,
       kxs.*1 `sublist_of` Dict.keys (group_samples (samples item.2)))
      (merge_sort name_le cat) blocks
    ∧ (generate_lines w g r).1.1
      = match cat with
        | [] => [NoMetricsLine]
        | _ :: _ => concat (zip_with metric_block (merge_sort name_le cat) blocks)
        end.
Proof.
  intros cat. subst cat. unfold generate_lines.
  destruct (scan_directory w g r) as [g1 r1]. simpl.
  destruct (emit_metrics_blocks (merge_sort name_le (metrics g1))
              (mkGenState (counter_state g1) r1 [])) as (blocks & Hall & Hout).
  exists blocks. split; [exact Hall|]. destruct (metrics g1); [reflexivity|exact Hout].
Qed.

Lemma omap_metadata_names n metric l :
  l ∈ omap line_name (metadata_lines n metric) → l = n.
Proof.
  unfold metadata_lines.
  destruct (String.eqb (help_text metric) ""), (String.eqb (metric_type metric) "");
    simpl; intros Hl;
    repeat (apply elem_of_cons in Hl as [-> | Hl]; [done|]);
    by apply elem_of_nil in Hl.
Qed.



Lemma omap_value_names n kxs l :
  l ∈ omap line_name (map (value_line n) kxs) → l = n.
Proof.
  induction kxs as [|kx kxs IH]; simpl; [by intros ?%elem_of_nil|].
  intros [-> | ?]%elem_of_cons; auto.
Qed.

Lemma block_names item kxs l :
  l ∈ omap line_name (metric_block item kxs) → l = item.1.
Proof.
  unfold metric_block. rewrite omap_app, elem_of_app.
  intros [?%omap_metadata_names | ?%omap_value_names]; done.
Qed.

Lemma blocks_names items blocks l :
  l ∈ omap line_name (concat (zip_with metric_block items blocks)) →
  l ∈ items.*1.
Proof.
  revert blocks. induction items as [|item items IH]; intros [|kxs blocks]; simpl;
    try by intros ?%elem_of_nil.
  rewrite omap_app, elem_of_app. intros [->%block_names | ?].
  - left.
  - right. by eapply IH.
Qed.

Lemma constant_sorted (l : list string) n :
  (∀ x, x ∈ l → x = n) → StronglySorted String.le l.
Proof.
  induction l as [|a l IH]; intros Hall; constructor.
  - apply IH. intros x Hx. apply Hall. by right.
  - apply Forall_forall. intros x Hx.
    rewrite (Hall a), (Hall x); [done|by right|by left].
Qed.

Lemma blocks_sorted items blocks :
  StronglySorted name_le items →
  StronglySorted String.le
    (omap line_name (concat (zip_with metric_block items blocks))).
Proof.
  intros Hs. revert blocks.
  induction Hs as [|item items Hs IH Hall]; intros [|kxs blocks]; simpl;
    try by constructor.
  rewrite omap_app. apply StronglySorted_app. split_and!.
  - intros x1 x2 ->%block_names Hx2%blocks_names.
    apply list_elem_of_fmap in Hx2 as (item' & -> & Hin).
    rewrite Forall_forall in Hall. by apply Hall.
  - apply (constant_sorted _ item.1). intros x. apply block_names.
  - apply IH.
Qed.

Global Instance name_le_total : Total name_le.
Proof. intros a b. unfold name_le. apply total, _. Qed.

Global Instance name_le_trans : Transitive name_le.
Proof. intros a b c. unfold name_le. apply transitivity. Qed.

(** The lines of a call follow the order of the metric names: the name
    of every line is at most the name of every later line. *)
Theorem output_in_name_order w g r :
  StronglySorted String.le (omap line_name (generate_lines w g r).1.1).
Proof.
  destruct (generate_lines_layout w g r) as (blocks & _ & ->).
  destruct (metrics (scan_directory w g r).1) as [|kv cat] eqn:E.
  { constructor. }
  apply blocks_sorted, Sorted_StronglySorted; [apply _|].
  apply Sorted_merge_sort; apply _.
Qed.





(** The marker line is written exactly when the catalog is empty after
    the scan. *)
Theorem marker_iff_catalog_empty w g r :
  NoMetricsLine ∈ (generate_lines w g r).1.1 ↔ metrics (scan_directory w g r).1 = [].
Proof.
  destruct (generate_lines_layout w g r) as (blocks & _ & ->).
  destruct (metrics (scan_directory w g r).1) as [|kv cat] eqn:E.
  { split; [done|]. intros _. left. }
  split; [|done].
  assert (∀ l, l ∈ concat (zip_with metric_block (merge_sort name_le (kv :: cat)) blocks) →
            line_name l ≠ None) as Hnamed; [|intros Hin; by destruct (Hnamed _ Hin)].
  { generalize (merge_sort name_le (kv :: cat)). intros items. revert blocks.
    induction items as [|item items IH]; intros [|kxs blocks] l; simpl;
      try by intros ?%elem_of_nil.
    rewrite elem_of_app. intros [Hl|Hl]; [|by eapply IH].
    unfold metric_block in Hl. apply elem_of_app in Hl as [Hl|Hl].
    - by apply metadata_lines_shape in Hl as [[-> _]|[-> _]].
    - by apply list_elem_of_fmap in Hl as (kx & -> & _). }
Qed.

(** ** What a call leaves alone in the counter store *)

Lemma emit_groups_frame n metric groups st n' key' :
  ∃ ls, st_out (fold_left (emit_group n metric) groups st) = st_out st ++ ls
    ∧ ((∀ lbls x, ValueLine n' key' lbls x ∉ ls) →
       stored (st_counters (fold_left (emit_group n metric) groups st)) n' key'
       = stored (st_counters st) n' key').
Proof.
  revert st. induction groups as [|grp groups IH]; intros st.
  { exists []. split; [|done]. simpl. by rewrite app_nil_r. }
  cbn [fold_left]. destruct (IH (emit_group n metric st grp)) as (ls & -> & Hkeep).
  destruct (emit_group_step n metric st grp)
    as [Hst _|prev _ _ inc Hout _ Hother _|lo hi _ _ _ Hout Hcs _].
  - rewrite Hst in *. by exists ls.
  - rewrite Hout. eexists. split; [by rewrite <- app_assoc|]. intros Hno.
    rewrite Hkeep; [|intros lbls x Hin; apply (Hno lbls x); by right].
    apply Hother. intros [= -> ->]. eapply Hno. left.
  - rewrite Hout. eexists. split; [by rewrite <- app_assoc|]. intros Hno.
    rewrite Hkeep; [|intros lbls x Hin; apply (Hno lbls x); by right].
    by rewrite Hcs.
Qed.

Lemma emit_metric_frame st n metric n' key' :
  ∃ ls, st_out (emit_metric st (n, metric)) = st_out st ++ metadata_lines n metric ++ ls
    ∧ ((∀ lbls x, ValueLine n' key' lbls x ∉ ls) →
       stored (st_counters (emit_metric st (n, metric))) n' key'
       = stored (st_counters st) n' key').
Proof.
  unfold emit_metric.
  destruct (emit_groups_frame n metric (group_samples (samples metric))
              (mkGenState (st_counters st) (st_rng st)
                 (st_out st ++ metadata_lines n metric)) n' key')
    as (ls & Hout & Hkeep).
  exists ls. simpl in *. split; [by rewrite Hout, <- app_assoc|done].
Qed.

Lemma emit_metrics_frame items st n' key' :
  ∃ ls, st_out (fold_left emit_metric items st) = st_out st ++ ls
    ∧ ((∀ lbls x, ValueLine n' key' lbls x ∉ ls) →
       stored (st_counters (fold_left emit_metric items st)) n' key'
       = stored (st_counters st) n' key').
Proof.
  revert st. induction items as [|[n metric] items IH]; intros st.
  { exists []. split; [|done]. simpl. by rewrite app_nil_r. }
  cbn [fold_left]. destruct (IH (emit_metric st (n, metric))) as (ls & -> & Hkeep).
  destruct (emit_metric_frame st n metric n' key') as (ls1 & -> & Hkeep1).
  exists (metadata_lines n metric ++ ls1 ++ ls).
  split; [by rewrite <- !app_assoc|]. intros Hno.
  rewrite Hkeep; [|intros lbls x Hin; apply (Hno lbls x); rewrite !elem_of_app; auto].
  apply Hkeep1.
  intros lbls x Hin. apply (Hno lbls x). rewrite !elem_of_app. auto.
Qed.

(** A call changes the counter store only where it writes: a series
    for which the call writes no value line has after the call the entry
    the scan left it, or still none. *)
Theorem unwritten_series_keep_their_entry w g r n key :
  (∀ lbls x, ValueLine n key lbls x ∉ (generate_lines w g r).1.1) →
  stored (counter_state (generate_lines w g r).1.2) n key
  = stored (counter_state (scan_directory w g r).1) n key.
Proof.
  unfold generate_lines. destruct (scan_directory w g r) as [g1 r1]. simpl.
  destruct (metrics g1) as [|kv cat]; [done|]. simpl.
  destruct (emit_metrics_frame (merge_sort name_le (kv :: cat))
              (mkGenState (counter_state g1) r1 []) n key) as (ls & -> & Hkeep).
  simpl. apply Hkeep.
Qed.

Lemma unwritten_series_keep_their_entry_witness :
  stored (counter_state
            (generate_lines Fixture.dir_v1 (init "/metrics") Fixture.rng0).1.2) "c" "a=2"
  = stored (counter_state
              (scan_directory Fixture.dir_v1 (init "/metrics") Fixture.rng0).1) "c" "a=2".
Proof.
  apply unwritten_series_keep_their_entry.
  intros lbls x Hin. apply list_elem_of_In in Hin. vm_compute in Hin.
  destruct Hin as [Hin|Hin]; [|destruct Hin as [Hin|[]]]; discriminate.
Defined.

(** ** The increment of a counter without a deviation *)



(** ** The interval between two scans *)

(** An attempt to scan that is not throttled, whether it rebuilds the
    catalog or is abandoned, starts the interval: a second attempt made
    before the interval has passed changes nothing. *)
Theorem scan_within_interval_is_noop w1 w2 g r r2 :
  scan_outcome w1 g ≠ Throttled →
  (now w2 - now w1 < scan_interval g)%Q →
  scan_outcome w2 (scan_directory w1 g r).1 = Throttled
  ∧ scan_directory w2 (scan_directory w1 g r).1 r2 = ((scan_directory w1 g r).1, r2).
Proof.
  intros Hout Hlt.
  assert (scan_outcome w2 (scan_directory w1 g r).1 = Throttled) as Hth.
  { destruct (scan_outcome w1 g) as [| |cat] eqn:E; [done|..].
    - rewrite scan_directory_abandoned by done. unfold scan_outcome. simpl.
      by rewrite (proj2 (FloatFacts.ltb_lt _ _) Hlt).
    - rewrite (scan_directory_rebuilt _ _ _ _ E). unfold scan_outcome. simpl.
      by rewrite (proj2 (FloatFacts.ltb_lt _ _) Hlt). }
  split; [done|]. by apply scan_directory_throttled.
Qed.

Lemma scan_within_interval_is_noop_witness :
  scan_directory (mkWorld 110 None)
    (scan_directory Fixture.dir_v1 (init "/metrics") Fixture.rng0).1 Fixture.rng0
  = ((scan_directory Fixture.dir_v1 (init "/metrics") Fixture.rng0).1, Fixture.rng0).
Proof.
  apply (scan_within_interval_is_noop Fixture.dir_v1 (mkWorld 110 None)).
  - by vm_compute.
  - by vm_compute.
Defined.

(** ** Lines the parser passes over *)

Lemma contains_app c s1 s2 :
  PyStr.contains c (s1 +:+ s2) = (PyStr.contains c s1 || PyStr.contains c s2)%bool.
Proof.
  induction s1 as [|a s1 IH]; [done|].
  rewrite StrFacts.app_cons. simpl. rewrite IH. by rewrite orb_assoc.
Qed.

Lemma contains_head c s : PyStr.contains c (String c s) = true.
Proof. simpl. by rewrite Ascii.eqb_refl. Qed.

Lemma match_pattern_shape line g :
  Re.match_ Pattern.pattern line = Some g →
  PyStr.contains " " line = true
  ∧ ∃ c rest, line = String c rest ∧ Pattern.name_start c = true.
Proof.
  unfold Re.match_. destruct (Re.match_prefix Pattern.pattern line) as [[rest g']|] eqn:E;
    [|done].
  intros _. apply ReFacts.match_prefix_sound in E as (text & -> & Hm).
  apply matches_pattern in Hm as (n & lbl & v & ts & _ & (c & n' & -> & Hc & _) & _ & ->).
  split.
  - rewrite !contains_app.
    change (" " +:+ v) with (String " " v). rewrite contains_head.
    by rewrite !orb_true_r.
  - exists c. rewrite !StrFacts.app_cons. eauto.
Qed.

Lemma startswith_contains p s c :
  PyStr.startswith p s = true → PyStr.contains c p = true → PyStr.contains c s = true.
Proof.
  revert s. induction p as [|a p IH]; intros [|b s]; simpl; try done.
  intros [Hab Hp]%andb_true_iff. apply Ascii.eqb_eq in Hab as ->.
  destruct (Ascii.eqb b c); [done|]. simpl. by apply IH.
Qed.

(** A line that, once stripped, holds no space, or that starts with a
    character that is neither the comment mark nor one a metric name can
    start with, leaves the metrics parsed so far as they are, and the
    lines after it are parsed as if it were not there. *)
Theorem unmatched_line_is_passed_over d before raw after :
  PyStr.contains " " (PyStr.strip raw) = false
  ∨ (∃ c rest, PyStr.strip raw = String c rest
       ∧ c ≠ "#"%char ∧ Pattern.name_start c = false) →
  Parser.parse_line d raw = Some d
  ∧ Parser.parse_lines d (before ++ raw :: after) = Parser.parse_lines d (before ++ after).
Proof.
  intros Hraw.
  assert (∀ d', Parser.parse_line d' raw = Some d') as Hskip.
  { intros d'. unfold Parser.parse_line.
    destruct (String.eqb (PyStr.strip raw) "" || PyStr.startswith "#" (PyStr.strip raw))%bool
      eqn:Hhead.
    - destruct (PyStr.startswith "# HELP " (PyStr.strip raw)) eqn:Hh.
      { destruct Hraw as [Hsp|(c & rest & Hs & Hc & _)].
        - by rewrite (startswith_contains _ _ " " Hh) in Hsp.
        - rewrite Hs in Hh. cbn [PyStr.startswith] in Hh.
          apply andb_true_iff in Hh as [Hh%Ascii.eqb_eq _]. by subst c. }
      destruct (PyStr.startswith "# TYPE " (PyStr.strip raw)) eqn:Ht; [|done].
      destruct Hraw as [Hsp|(c & rest & Hs & Hc & _)].
      + by rewrite (startswith_contains _ _ " " Ht) in Hsp.
      + rewrite Hs in Ht. cbn [PyStr.startswith] in Ht.
        apply andb_true_iff in Ht as [Ht%Ascii.eqb_eq _]. by subst c.
    - destruct (Re.match_ Pattern.pattern (PyStr.strip raw)) as [grp|] eqn:E; [|done].
      apply match_pattern_shape in E as (Hsp & c & rest & Hs & Hc).
      destruct Hraw as [Hno|(c' & rest' & Hs' & _ & Hc')]; [congruence|].
      rewrite Hs in Hs'. injection Hs' as <- <-. congruence. }
  split; [apply Hskip|].
  revert d. induction before as [|l before IH]; intros d; simpl.
  - by rewrite Hskip.
  - destruct (Parser.parse_line d l) as [d'|]; simpl; [apply IH|done].
Qed.

Lemma unmatched_line_is_passed_over_witness :
  Parser.parse_lines [] (["a 1"] ++ "garbage" :: ["b 2"])
  = Parser.parse_lines [] (["a 1"] ++ ["b 2"]).
Proof.
  apply (unmatched_line_is_passed_over [] ["a 1"] "garbage" ["b 2"]).
  left. reflexivity.
Defined.


(** ** Invariants of the reachable states *)

(** In every state the exporter reaches, the names of the catalog are
    unique, no stored minimum is above the stored maximum, and the
    statistics of every definition are absent or those of a non-empty
    initial part of its samples. *)
Theorem reachable_catalog_invariants ws dir r c :
  c ∈ run ws (init dir) r →
  catalog_wf (metrics (call_after c)) ∧ catalog_observed (metrics (call_after c)).
Proof.
  intros Hc.
  apply (run_catalog_invariant (λ d, catalog_wf d ∧ catalog_observed d) ws (init dir) r c);
    [|apply init_invariants|done].
  intros files cat E. split.
  - eapply scan_files_wf; [apply catalog_wf_nil|exact E].
  - eapply scan_files_observed; [|exact E]. constructor.
Qed.

Lemma reachable_catalog_invariants_witness :
  catalog_wf (metrics (call_after first_call))
  ∧ catalog_observed (metrics (call_after first_call)).
Proof.
  exact (reachable_catalog_invariants FixtureTrace.two_calls "/metrics" Fixture.rng0
           first_call first_call_in_trace).
Defined.

(** A call leaves the directory and the interval of the generator as
    they are, and it never moves the time of the last scan back: that
    time stays, or it becomes the time of the call, which is then at least
    one interval later. *)
Theorem last_scan_time_never_goes_back w g r :
  (0 <= scan_interval g)%Q →
  let g' := (generate_lines w g r).1.2 in
  metrics_dir g' = metrics_dir g ∧ scan_interval g' = scan_interval g
  ∧ (last_scan_time g <= last_scan_time g')%Q
  ∧ (last_scan_time g' = last_scan_time g
     ∨ last_scan_time g' = now w
       ∧ (last_scan_time g + scan_interval g <= now w)%Q).
Proof.
  intros Hpos g'.
  assert (metrics_dir g' = metrics_dir (scan_directory w g r).1
          ∧ scan_interval g' = scan_interval (scan_directory w g r).1
          ∧ last_scan_time g' = last_scan_time (scan_directory w g r).1)
    as (-> & -> & ->).
  { subst g'. unfold generate_lines. destruct (scan_directory w g r) as [g1 r1]. simpl.
    by destruct (metrics g1). }
  assert (Float.ltb (now w - last_scan_time g) (scan_interval g) = false →
          (last_scan_time g + scan_interval g <= now w)%Q) as Hdue.
  { intros Hl%FloatFacts.ltb_ge.
    apply (Qplus_le_l _ _ (- last_scan_time g)).
    eapply Qle_trans; [|exact Hl]. apply Qle_lteq. right. ring. }
  assert (Float.ltb (now w - last_scan_time g) (scan_interval g) = false →
          (last_scan_time g <= now w)%Q) as Hlater.
  { intros Hl. eapply Qle_trans; [|exact (Hdue Hl)].
    rewrite <- (Qplus_0_r (last_scan_time g)) at 1. by apply Qplus_le_r. }
  unfold scan_directory.
  destruct (Float.ltb (now w - last_scan_time g) (scan_interval g)) eqn:E.
  { simpl. split_and!; [done..|apply Qle_refl|by left]. }
  destruct (listing w ≫= _) as [cat|]; simpl.
  - destruct (fold_left seed_metric cat (counter_state g, r)). simpl.
    split_and!; [done..|by apply Hlater|right; split; [done|by apply Hdue]].
  - split_and!; [done..|by apply Hlater|right; split; [done|by apply Hdue]].
Qed.

Lemma last_scan_time_never_goes_back_witness :
  (last_scan_time (init "/metrics")
   <= last_scan_time
        (generate_lines Fixture.dir_v1 (init "/metrics") Fixture.rng0).1.2)%Q.
Proof.
  refine (proj1 (proj2 (proj2
    (last_scan_time_never_goes_back Fixture.dir_v1 (init "/metrics") Fixture.rng0 _)))).
  by vm_compute.
Defined.

(** ** Witnesses for the statistics and a one-line corpus *)

Lemma parsed_statistics_current_witness :
  let d := default [] (Parser.parse_content FixtureGauge.temp_file) in
  let m := default (new_metric "" "" "" []) (Dict.get "temp_c" d) in
  post_init m = m.
Proof.
  intros d m.
  apply (parsed_statistics_current FixtureGauge.temp_file d "temp_c" m).
  - by vm_compute.
  - vm_compute. left.
Defined.

